(** * Structured error responses of goa: error classes and MergeErrors

    Shallow embedding of [src/http/error.go].  An [*ErrorResponse] is a
    pointer: the structs live in a heap, [MergeErrors] mutates the struct
    its first argument points to, and both arguments may be the same
    pointer.  The package functions are therefore written in a small
    state-and-panic monad over a [world] made of that heap and of the bytes
    the random source will deliver.

    Modelling choices:
    - [int] is [Z]; the package compares and stores statuses and never
      computes with them.
    - A slice is a list: [append] is list concatenation, and two [Meta]
      slices never share a backing array.
    - A pointer is a location of the heap.  Go has no dangling pointers; a
      location with no struct stands for the nil pointer, and dereferencing
      it panics.  Statements about errors that are present ask for live
      pointers.
    - A value of another package's type carries the results of its methods
      and of [fmt]'s formatting (see [Fmt.object]). *)

From Stdlib Require Import ZArith Ascii String List Lia DecimalString.
From stdpp Require Import base option list strings gmap.

Open Scope Z_scope.

(** ** Dynamic values ([interface{}]) and the [fmt] verbs used by the package *)

Module Fmt.

(** A value whose dynamic type is not [string].  The package only ever
    asks four things of such a value: whether it implements [error] (and
    then what [Error()] returns), whether it implements [fmt.Stringer]
    (and then what [String()] returns), and how [fmt] prints it under
    [%v] and under [%#v].  The answers are recorded in the value. *)
Record object := Object {
  obj_Error : option string;
  obj_String : option string;
  obj_v : string;
  obj_sharp_v : string
}.

Inductive value :=
| VString (s : string)
| VOther (o : object).

Definition hex_digit (n : N) : ascii :=
  ascii_of_N (if (n <? 10)%N then 48 + n else 87 + n)%N.

Definition dquote : ascii := "034"%char.

(** [strconv.Quote] on one byte of an ASCII string.  Bytes from 0x80 up
    are copied: that is what Go does for the printable runes of a valid
    UTF-8 string, the only non-ASCII inputs this model is meant for. *)
Definition quote_byte (c : ascii) : string :=
  let n := N_of_ascii c in
  if (n =? 34)%N then String "\" (String dquote EmptyString)
  else if (n =? 92)%N then "\\"
  else if (n =? 7)%N then "\a"
  else if (n =? 8)%N then "\b"
  else if (n =? 12)%N then "\f"
  else if (n =? 10)%N then "\n"
  else if (n =? 13)%N then "\r"
  else if (n =? 9)%N then "\t"
  else if (n =? 11)%N then "\v"
  else if ((n <? 32) || (n =? 127))%N
       then String "\" (String "x" (String (hex_digit (n / 16))
                                           (String (hex_digit (n mod 16)) "")))
  else String c "".

Fixpoint quote_bytes (s : string) : string :=
  match s with
  | EmptyString => String dquote EmptyString
  | String c s' => quote_byte c +:+ quote_bytes s'
  end.

Definition Quote (s : string) : string := String dquote (quote_bytes s).

(** [fmt.Sprintf("%v", x)] *)
Definition Sprint_v (x : value) : string :=
  match x with
  | VString s => s
  | VOther o => obj_v o
  end.

(** [fmt.Sprintf("%#v", x)] *)
Definition Sprint_sharp_v (x : value) : string :=
  match x with
  | VString s => Quote s
  | VOther o => obj_sharp_v o
  end.

End Fmt.
Export Fmt.

(** ** The data model *)

(** [map[string]interface{}].  Go leaves the order in which [range] visits
    the keys of a map unspecified; [map_to_list] is one such order, and for
    a map of one key there is only one. *)
Abbreviation gomap := (gmap string value).

Record ErrorResponse := mkErrorResponse {
  ID : string;
  Code : string;
  Status : Z;
  Detail : string;
  Meta : list gomap
}.

Definition with_Code (c : string) (r : ErrorResponse) : ErrorResponse :=
  mkErrorResponse (ID r) c (Status r) (Detail r) (Meta r).
Definition with_Status (s : Z) (r : ErrorResponse) : ErrorResponse :=
  mkErrorResponse (ID r) (Code r) s (Detail r) (Meta r).
Definition with_Detail (d : string) (r : ErrorResponse) : ErrorResponse :=
  mkErrorResponse (ID r) (Code r) (Status r) d (Meta r).
Definition with_Meta (m : list gomap) (r : ErrorResponse) : ErrorResponse :=
  mkErrorResponse (ID r) (Code r) (Status r) (Detail r) m.

Abbreviation loc := positive.

(** A value of the interface type [error]: the nil interface, a pointer to
    an [ErrorResponse], or a value of any other type, of which the package
    only uses the text [Error()] returns. *)
Inductive error :=
| Nil
| Resp (p : loc)
| Plain (msg : string).

#[global] Instance error_eq_dec : EqDecision error.
Proof. solve_decision. Defined.

(** ** The world: heap of error structs and the random source *)

Record world := World {
  heap : gmap loc ErrorResponse;
  entropy : list Z
}.

(** A computation reads and updates the world, or panics ([None]). *)
Definition M (A : Type) : Type := world → option (A * world).

#[global] Instance M_ret : MRet M := λ A a w, Some (a, w).
#[global] Instance M_bind : MBind M := λ A B f m w,
  match m w with
  | Some (a, w') => f a w'
  | None => None
  end.

Definition panic {A} : M A := λ _, None.

(** [&ErrorResponse{...}]: a pointer no live struct has. *)
Definition alloc (r : ErrorResponse) : M loc := λ w,
  let p := fresh (dom (heap w)) in
  Some (p, World (<[p := r]> (heap w)) (entropy w)).

(** [p.f] for a field [f]; a pointer to no struct is a nil dereference. *)
Definition load {A} (f : ErrorResponse → A) (p : loc) : M A := λ w,
  match heap w !! p with
  | Some r => Some (f r, w)
  | None => None
  end.

(** [p.f = x], as the update [upd] of the struct. *)
Definition store (upd : ErrorResponse → ErrorResponse) (p : loc) : M unit := λ w,
  match heap w !! p with
  | Some r => Some (tt, World (<[p := upd r]> (heap w)) (entropy w))
  | None => None
  end.

(** [for _, x := range l { body }] over a slice value already evaluated. *)
Fixpoint range {A} (l : list A) (body : A → M unit) : M unit :=
  match l with
  | [] => mret tt
  | x :: l' => body x;; range l' body
  end.

(** [c1 || c2] with Go's short-circuit evaluation. *)
Definition orM (c1 c2 : M bool) : M bool :=
  b ← c1; if b : bool then mret true else c2.

(** ** Identifier generation *)

Module Base64.

(** The alphabet of [base64.StdEncoding]. *)
Definition digit (n : Z) : ascii :=
  ascii_of_N (Z.to_N (if n <? 26 then 65 + n
                      else if n <? 52 then 97 + (n - 26)
                      else if n <? 62 then 48 + (n - 52)
                      else if n =? 62 then 43 else 47)).

Definition sextet (v : Z) (k : Z) : ascii :=
  digit (Z.land (Z.shiftr v k) 63).

Definition pad : ascii := "="%char.

(** [StdEncoding.EncodeToString]: three bytes give four digits, a rest of
    one or two bytes is padded. *)
Fixpoint EncodeToString (src : list Z) : string :=
  match src with
  | [] => EmptyString
  | [a] =>
      let v := Z.shiftl a 16 in
      String (sextet v 18) (String (sextet v 12) (String pad (String pad EmptyString)))
  | [a; b] =>
      let v := Z.lor (Z.shiftl a 16) (Z.shiftl b 8) in
      String (sextet v 18) (String (sextet v 12) (String (sextet v 6)
        (String pad EmptyString)))
  | a :: b :: c :: rest =>
      let v := Z.lor (Z.lor (Z.shiftl a 16) (Z.shiftl b 8)) c in
      String (sextet v 18) (String (sextet v 12) (String (sextet v 6)
        (String (sextet v 0) (EncodeToString rest))))
  end.

End Base64.

(** [io.ReadFull(rand.Reader, b)] on a zeroed buffer of [n] bytes, its error
    dropped as the source drops it: the bytes the source delivers are copied
    and the rest of the buffer stays zero. *)
Definition ReadFull (n : nat) : M (list Z) := λ w,
  let got := take n (entropy w) in
  Some (got ++ replicate (n - length got)%nat 0, World (heap w) (drop n (entropy w))).

Definition newErrorID : M string :=
  b ← ReadFull 6; mret (Base64.EncodeToString b).

(** ** Error classes *)

Definition ErrorClass : Type := value → list value → M error.

(** The [switch actual := message.(type)] of the class body. *)
Definition coerce_message (message : value) : string :=
  match message with
  | VString actual => actual
  | VOther actual =>
      match obj_Error actual with
      | Some text => text
      | None =>
          match obj_String actual with
          | Some text => text
          | None => obj_v actual
          end
      end
  end.

(** The loop [for i := 0; i < len(keyvals); i += 2] that fills [meta].  Each
    turn moves [i] two steps closer to [len(keyvals)], so [fuel] turns
    suffice when [fuel] is at least the distance left. *)
Fixpoint fill_meta (fuel : nat) (keyvals : list value) (i : nat)
    (meta : list gomap) : list gomap :=
  match fuel with
  | O => meta
  | S fuel' =>
      if (i <? length keyvals)%nat then
        match keyvals !! i with
        | Some k =>
            let v :=
              if (i + 1 <? length keyvals)%nat
              then default (VString "MISSING") (keyvals !! (i + 1)%nat)
              else VString "MISSING" in
            fill_meta fuel' keyvals (i + 2)
              (<[(i / 2)%nat := {[Sprint_v k := v]}]> meta)
        | None => meta
        end
      else meta
  end.

Definition build_meta (keyvals : list value) : list gomap :=
  fill_meta (length keyvals) keyvals 0
    (replicate ((length keyvals + 1) / 2)%nat ∅).

Definition NewErrorClass (code : string) (status : Z) : ErrorClass :=
  λ message keyvals,
    let msg := coerce_message message in
    let meta := build_meta keyvals in
    id ← newErrorID;
    p ← alloc (mkErrorResponse id code status msg meta);
    mret (Resp p).

Definition ErrBadRequest : ErrorClass := NewErrorClass "bad_request" 400.
Definition ErrUnauthorized : ErrorClass := NewErrorClass "unauthorized" 401.
Definition ErrInvalidRequest : ErrorClass := NewErrorClass "invalid_request" 400.
Definition ErrInvalidEncoding : ErrorClass := NewErrorClass "invalid_encoding" 400.
Definition ErrRequestBodyTooLarge : ErrorClass := NewErrorClass "request_too_large" 413.
Definition ErrInvalidFile : ErrorClass := NewErrorClass "invalid_file" 404.
Definition ErrNotFound : ErrorClass := NewErrorClass "not_found" 404.
Definition ErrInternal : ErrorClass := NewErrorClass "internal" 500.

(** ** Validation helpers *)

Definition MissingPayloadError : M error :=
  ErrInvalidRequest (VString "missing required payload") [].

Definition InvalidParamTypeError (name : string) (val : value) (expected : string)
    : M error :=
  let msg := "invalid value " +:+ Sprint_sharp_v val +:+ " for parameter "
             +:+ Quote name +:+ ", must be a " +:+ expected in
  ErrInvalidRequest (VString msg)
    [VString "param"; VString name; VString "value"; val;
     VString "expected"; VString expected].

Definition MissingParamError (name : string) : M error :=
  let msg := "missing required parameter " +:+ Quote name in
  ErrInvalidRequest (VString msg) [VString "name"; VString name].

(** ** Merging *)

Definition internal_error_response (msg : string) : ErrorResponse :=
  mkErrorResponse EmptyString "internal_error" 500 msg [].

(** The type assertion of [err] to a pointer to [ErrorResponse], and a new
    struct when it fails.  On the nil interface the assertion fails and
    [err.Error()] panics. *)
Definition asErrorResponse (err : error) : M loc :=
  match err with
  | Resp e => mret e
  | Plain msg => alloc (internal_error_response msg)
  | Nil => panic
  end.

Definition append_entry (e : loc) (kv : string * value) : M unit :=
  store (λ r, with_Meta (Meta r ++ [{[kv.1 := kv.2]}]) r) e.

Definition MergeErrors (err other : error) : M error :=
  if decide (err = Nil) then
    if decide (other = Nil) then mret Nil
    else p ← asErrorResponse other; mret (Resp p)
  else if decide (other = Nil) then p ← asErrorResponse err; mret (Resp p)
  else
    e ← asErrorResponse err;
    o ← asErrorResponse other;
    any500 ← orM (s ← load Status e; mret (s =? 500))
                 (s ← load Status o; mret (s =? 500));
    (if any500 : bool then
       s ← load Status e;
       if s =? 500 then mret tt
       else store (with_Status 500) e;; store (with_Code "internal_error") e
     else
       differ ← orM (s ← load Status e; s' ← load Status o; mret (negb (s =? s')))
                    (c ← load Code e; c' ← load Code o;
                     mret (negb (bool_decide (c = c'))));
       if differ : bool then
         store (with_Status 400) e;; store (with_Code "bad_request") e
       else mret tt);;
    d ← load Detail e;
    d' ← load Detail o;
    store (with_Detail (d +:+ "; " +:+ d')) e;;
    vals ← load Meta o;
    range vals (λ val, range (map_to_list val) (append_entry e));;
    mret (Resp e).

(** ** Vocabulary of the statements *)

(** The struct [asErrorResponse err] points to: the struct of [err] itself
    when it is structured, the new internal error otherwise. *)
Definition promoted (err : error) (w : world) : option ErrorResponse :=
  match asErrorResponse err w with
  | Some (p, w') => heap w' !! p
  | None => None
  end.

(** The struct an [error] returned by the package points to. *)
Definition deref (r : error) (w : world) : option ErrorResponse :=
  match r with
  | Resp p => heap w !! p
  | _ => None
  end.

(** An error value whose pointer, if it is one, points to a live struct. *)
Definition live (w : world) (err : error) : Prop :=
  match err with
  | Resp p => is_Some (heap w !! p)
  | _ => True
  end.

Definition single (kv : string * value) : gomap := {[kv.1 := kv.2]}.

(** What the two nested [range] loops of [MergeErrors] append: one map of
    one key for each key of each map, in the order they are visited. *)
Definition entries (vals : list gomap) : list gomap :=
  vals ≫= λ val, single <$> map_to_list val.

Definition single_key (m : gomap) : Prop := ∃ k v, m = {[k := v]}.

(** The struct [MergeErrors] leaves behind its first argument, as a function
    of the two promoted structs [a] and [b] read before the call. *)
Definition merged (a b : ErrorResponse) : ErrorResponse :=
  let '(status, code) :=
    if (Status a =? 500) || (Status b =? 500) then
      (500, if Status a =? 500 then Code a else "internal_error"%string)
    else if negb (Status a =? Status b) || negb (bool_decide (Code a = Code b))
    then (400, "bad_request"%string)
    else (Status a, Code a) in
  mkErrorResponse (ID a) code status (Detail a +:+ "; " +:+ Detail b)
    (Meta a ++ entries (Meta b)).

(** The key/value pairing a class invocation performs, by recursion on the
    argument list. *)
Fixpoint pair_up (keyvals : list value) : list gomap :=
  match keyvals with
  | [] => []
  | [k] => [{[Sprint_v k := VString "MISSING"]}]
  | k :: v :: rest => {[Sprint_v k := v]} :: pair_up rest
  end.

(** The six bytes [newErrorID] encodes in world [w]. *)
Definition id_bytes (w : world) : list Z :=
  take 6 (entropy w) ++ replicate (6 - length (take 6 (entropy w))) 0.

(** The error that survives a merge: the first one, or the second when the
    first is absent. *)
Definition survivor (err other : error) : error :=
  if decide (err = Nil) then other else err.

(** The scenario of two validation failures of one request. *)
Definition merge_two_param_errors : M error :=
  a ← MissingParamError "id";
  b ← InvalidParamTypeError "sort" (VString "xx") "integer";
  MergeErrors a b.

Definition two_param_errors_detail : string :=
  "missing required parameter " +:+ Quote "id" +:+ "; "
  +:+ "invalid value " +:+ Quote "xx" +:+ " for parameter " +:+ Quote "sort"
  +:+ ", must be a integer".

Definition two_param_errors_meta : list gomap :=
  [{["name" := VString "id"]}; {["param" := VString "sort"]};
   {["value" := VString "xx"]}; {["expected" := VString "integer"]}].

(** ** Sample structs and worlds *)

Definition not_found_7 : ErrorResponse :=
  mkErrorResponse "AQIDBAUG" "not_found" 404 "no such bottle"
    [{["id" := VString "7"]}].

Definition not_found_8 : ErrorResponse :=
  mkErrorResponse "BwgJCgsM" "not_found" 404 "no such account"
    [{["id" := VString "8"]}; {["kind" := VString "account"]}].

Definition invalid_file_8 : ErrorResponse :=
  mkErrorResponse "BwgJCgsM" "invalid_file" 404 "unreadable"
    [{["path" := VString "/tmp/x"]}].

Definition bad_sort : ErrorResponse :=
  mkErrorResponse "DQ4PEBES" "invalid_request" 400 "sort must be an integer"
    [{["param" := VString "sort"]}].

Definition two_errors (a b : ErrorResponse) : world :=
  World (<[2%positive := b]> {[1%positive := a]}) [].

(** The world after the pre-registered "internal" class built one error. *)
Definition after_internal : world :=
  match ErrInternal (VString "boom") [] (World ∅ [1; 2; 3; 4; 5; 6]) with
  | Some (_, w) => w
  | None => World ∅ []
  end.

(** ** Methods of [ErrorResponse] *)

(** [fmt.Sprintf("%d", n)] *)
Definition Sprint_d (n : Z) : string := NilZero.string_of_int (Z.to_int n).

(** One turn of the inner loop of [Error]: [msg += ", " + "k: v"]. *)
Definition add_meta_text (msg : string) (kv : string * value) : string :=
  msg +:+ ", " +:+ (kv.1 +:+ ": " +:+ Sprint_v kv.2).

(** The method [Error] of a pointer to [ErrorResponse]. *)
Definition ErrorResponse_Error (e : loc) : M string :=
  id ← load ID e;
  status ← load Status e;
  code ← load Code e;
  detail ← load Detail e;
  let msg := "[" +:+ id +:+ "] " +:+ Sprint_d status +:+ " " +:+ code
             +:+ ": " +:+ detail in
  vals ← load Meta e;
  mret (foldl (λ msg val, foldl add_meta_text msg (map_to_list val)) msg vals).

Definition ResponseStatus (e : loc) : M Z := load Status e.

Definition Token (e : loc) : M string := load ID e.

(** [err.Error()] on a value of the interface [error]; on the nil interface
    the call panics. *)
Definition error_Error (err : error) : M string :=
  match err with
  | Nil => panic
  | Resp e => ErrorResponse_Error e
  | Plain msg => mret msg
  end.

(** ** The other validation helpers *)

(** An [int] held in an [interface{}]: no methods, printed in decimal by
    both verbs. *)
Definition VInt (n : Z) : value :=
  VOther (Object None None (Sprint_d n) (Sprint_d n)).

(** [strings.Join] *)
Fixpoint Join (elems : list string) (sep : string) : string :=
  match elems with
  | [] => EmptyString
  | [x] => x
  | x :: rest => x +:+ sep +:+ Join rest sep
  end.

Definition InvalidAttributeTypeError (ctx : string) (val : value)
    (expected : string) : M error :=
  let msg := "type of " +:+ ctx +:+ " must be " +:+ expected
             +:+ " but got value " +:+ Sprint_sharp_v val in
  ErrInvalidRequest (VString msg)
    [VString "attribute"; VString ctx; VString "value"; val;
     VString "expected"; VString expected].

Definition MissingAttributeError (ctx name : string) : M error :=
  let msg := "attribute " +:+ Quote name +:+ " of " +:+ ctx
             +:+ " is missing and required" in
  ErrInvalidRequest (VString msg)
    [VString "attribute"; VString name; VString "parent"; VString ctx].

Definition MissingHeaderError (name : string) : M error :=
  let msg := "missing required HTTP header " +:+ Quote name in
  ErrInvalidRequest (VString msg) [VString "name"; VString name].

Definition InvalidEnumValueError (ctx : string) (val : value)
    (allowed : list value) : M error :=
  let elems := Sprint_sharp_v <$> allowed in
  let msg := "value of " +:+ ctx +:+ " must be one of " +:+ Join elems ", "
             +:+ " but got value " +:+ Sprint_sharp_v val in
  ErrInvalidRequest (VString msg)
    [VString "attribute"; VString ctx; VString "value"; val;
     VString "expected"; VString (Join elems ", ")].

(** [Format] is declared in another file; the helper is given what it uses
    of it: how [%s] prints a format and the format as an [interface{}]. *)
Definition InvalidFormatError {Format : Type} (Format_s : Format → string)
    (Format_value : Format → value) (ctx target : string) (format : Format)
    (formatError : error) : M error :=
  text ← error_Error formatError;
  let msg := ctx +:+ " must be formatted as a " +:+ Format_s format
             +:+ " but got value " +:+ Quote target +:+ ", " +:+ text in
  text' ← error_Error formatError;
  ErrInvalidRequest (VString msg)
    [VString "attribute"; VString ctx; VString "value"; VString target;
     VString "expected"; Format_value format; VString "error"; VString text'].

Definition InvalidPatternError (ctx target pattern : string) : M error :=
  let msg := ctx +:+ " must match the regexp " +:+ Quote pattern
             +:+ " but got value " +:+ Quote target in
  ErrInvalidRequest (VString msg)
    [VString "attribute"; VString ctx; VString "value"; VString target;
     VString "regexp"; VString pattern].

Definition comparison (min : bool) : string :=
  if negb min then "lesser or equal" else "greater or equal".

Definition InvalidRangeError (ctx : string) (target : value) (value : Z)
    (min : bool) : M error :=
  let comp := comparison min in
  let msg := ctx +:+ " must be " +:+ comp +:+ " than " +:+ Sprint_d value
             +:+ " but got value " +:+ Sprint_sharp_v target in
  ErrInvalidRequest (VString msg)
    [VString "attribute"; VString ctx; VString "value"; target;
     VString "comp"; VString comp; VString "expected"; VInt value].

Definition InvalidLengthError (ctx : string) (target : value) (ln value : Z)
    (min : bool) : M error :=
  let comp := comparison min in
  let msg := "length of " +:+ ctx +:+ " must be " +:+ comp +:+ " than "
             +:+ Sprint_d value +:+ " but got value " +:+ Sprint_sharp_v target
             +:+ " (len=" +:+ Sprint_d ln +:+ ")" in
  ErrInvalidRequest (VString msg)
    [VString "attribute"; VString ctx; VString "value"; target;
     VString "len"; VInt ln; VString "comp"; VString comp;
     VString "expected"; VInt value].

(** A call of one of the helpers that build an error and nothing else. *)
Inductive helper_call :=
| CallMissingPayload
| CallInvalidParamType (name : string) (val : value) (expected : string)
| CallMissingParam (name : string)
| CallInvalidAttributeType (ctx : string) (val : value) (expected : string)
| CallMissingAttribute (ctx name : string)
| CallMissingHeader (name : string)
| CallInvalidEnumValue (ctx : string) (val : value) (allowed : list value)
| CallInvalidPattern (ctx target pattern : string)
| CallInvalidRange (ctx : string) (target : value) (value : Z) (min : bool)
| CallInvalidLength (ctx : string) (target : value) (ln value : Z) (min : bool).

Definition call (h : helper_call) : M error :=
  match h with
  | CallMissingPayload => MissingPayloadError
  | CallInvalidParamType name val expected => InvalidParamTypeError name val expected
  | CallMissingParam name => MissingParamError name
  | CallInvalidAttributeType ctx val expected =>
      InvalidAttributeTypeError ctx val expected
  | CallMissingAttribute ctx name => MissingAttributeError ctx name
  | CallMissingHeader name => MissingHeaderError name
  | CallInvalidEnumValue ctx val allowed => InvalidEnumValueError ctx val allowed
  | CallInvalidPattern ctx target pattern => InvalidPatternError ctx target pattern
  | CallInvalidRange ctx target value min => InvalidRangeError ctx target value min
  | CallInvalidLength ctx target ln value min =>
      InvalidLengthError ctx target ln value min
  end.

(** ** The resource DSL *)

(** [Resource] registers a resource definition in [design.Design.Resources].
    The DSL engine and the constructor of definitions are other packages:
    the function is given their state and their functions, the calls keeping
    the shape they have in the source.  The engine knows nothing of
    [design.Design], so its functions read and change the engine state
    only. *)
Section ResourceDSL.

Context (engine dsl ResourceDefinition : Type).
Context (IsTopLevelDefinition : engine → bool).
Context (IncompatibleDSL : engine → engine).
Context (ReportError : string → list value → engine → engine).
Context (NewResourceDefinition : string → dsl → ResourceDefinition).

(** [design.Design.Resources], a map that may still be nil, and the state of
    the engine. *)
Record design_state := DesignState {
  Resources : option (gmap string ResourceDefinition);
  engine_state : engine
}.

(** The definition registered under [name]; reading a nil map finds
    nothing. *)
Definition resource_named (st : design_state) (name : string)
    : option ResourceDefinition :=
  match Resources st with
  | Some m => m !! name
  | None => None
  end.

(** The result is the pointer returned, [None] for nil. *)
Definition Resource (name : string) (d : dsl) (st : design_state)
    : option ResourceDefinition * design_state :=
  let resources := default ∅ (Resources st) in
  if negb (IsTopLevelDefinition (engine_state st)) then
    (None, DesignState (Some resources) (IncompatibleDSL (engine_state st)))
  else
    match resources !! name with
    | Some _ =>
        (None,
         DesignState (Some resources)
           (ReportError "resource %#v is defined twice" [VString name]
              (engine_state st)))
    | None =>
        let resource := NewResourceDefinition name d in
        (Some resource,
         DesignState (Some (<[name := resource]> resources)) (engine_state st))
    end.

End ResourceDSL.

Arguments DesignState {engine ResourceDefinition} _ _.
Arguments Resources {engine ResourceDefinition} _.
Arguments engine_state {engine ResourceDefinition} _.
Arguments resource_named {engine ResourceDefinition} _ _.
Arguments Resource {engine dsl ResourceDefinition} _ _ _ _ _ _ _.

(** A sample engine: a flag that says whether the DSL runs at the top level
    and the errors reported so far; a definition is the name it was given. *)
Definition sample_Resource :
    string → unit → design_state (bool * list string) string →
    option string * design_state (bool * list string) string :=
  Resource (engine := bool * list string) fst
    (λ e, (e.1, e.2 ++ ["incompatible DSL"%string]))
    (λ fm args e, (e.1, e.2 ++ [fm]))
    (λ name _, name).

Definition sample_design : design_state (bool * list string) string :=
  DesignState None (true, []).

(** ** Further vocabulary *)

(** The status and code [MergeErrors] settles on, as a function of the
    status and code of the two promoted errors. *)
Definition resolve (x y : Z * string) : Z * string :=
  if (x.1 =? 500) || (y.1 =? 500) then
    (500, if x.1 =? 500 then x.2 else "internal_error"%string)
  else if negb (x.1 =? y.1) || negb (bool_decide (x.2 = y.2))
  then (400, "bad_request"%string)
  else x.

(** The loop of [Error] over the meta, started from the text [msg]. *)
Definition meta_text (msg : string) (vals : list gomap) : string :=
  foldl (λ msg val, foldl add_meta_text msg (map_to_list val)) msg vals.

(** The text [Error] starts from, before the meta is listed. *)
Definition head_text (r : ErrorResponse) : string :=
  "[" +:+ ID r +:+ "] " +:+ Sprint_d (Status r) +:+ " " +:+ Code r
  +:+ ": " +:+ Detail r.

(** The decoding table of the alphabet of [Base64.digit]. *)
Definition undigit (c : ascii) : Z :=
  let n := Z.of_N (N_of_ascii c) in
  if (65 <=? n) && (n <=? 90) then n - 65
  else if (97 <=? n) && (n <=? 122) then n - 71
  else if (48 <=? n) && (n <=? 57) then n + 4
  else if n =? 43 then 62 else 63.

(** A byte, as the random source delivers it. *)
Definition is_byte (b : Z) : Prop := 0 ≤ b < 256.

(** Two worlds with nothing but a few random bytes. *)
Definition seven_bytes : world := World ∅ [1; 2; 3; 4; 5; 6; 7].
Definition six_bytes : world := World ∅ [1; 2; 3; 4; 5; 7].

(** * Proofs *)

(** ** Running the monad *)

Section monad_steps.
Context {A B : Type}.
Implicit Types (w : world) (p : loc) (r : ErrorResponse).

Lemma run_ret (a : A) (k : A → M B) w : (mret a ≫= k) w = k a w.
Proof. reflexivity. Qed.

Lemma run_bind (m : M A) (k : A → M B) w a w' :
  m w = Some (a, w') → (m ≫= k) w = k a w'.
Proof. intros H. unfold mbind, M_bind. now rewrite H. Qed.

Lemma run_store upd (k : unit → M B) w p r :
  heap w !! p = Some r →
  (store upd p ≫= k) w = k tt (World (<[p := upd r]> (heap w)) (entropy w)).
Proof. intros H. unfold mbind, M_bind, store. now rewrite H. Qed.
End monad_steps.

Lemma with_Meta_same r : with_Meta (Meta r) r = r.
Proof. now destruct r. Qed.

(** ** The loops of [MergeErrors] *)

Lemma range_nil {A} (body : A → M unit) w : range [] body w = Some (tt, w).
Proof. reflexivity. Qed.

Lemma range_cons {A} (x : A) l (body : A → M unit) :
  range (x :: l) body = body x ≫= λ _, range l body.
Proof. reflexivity. Qed.

Lemma world_same w r e :
  heap w !! e = Some r → World (<[e := r]> (heap w)) (entropy w) = w.
Proof. intros H. rewrite insert_id by done. now destruct w. Qed.

Lemma run_append_entry {B} e kv (k : unit → M B) w r :
  heap w !! e = Some r →
  (append_entry e kv ≫= k) w =
    k tt (World (<[e := with_Meta (Meta r ++ [single kv]) r]> (heap w)) (entropy w)).
Proof. intros H. unfold append_entry. now erewrite run_store by eassumption. Qed.

Lemma range_append_entry (kvs : list (string * value)) e w r :
  heap w !! e = Some r →
  range kvs (append_entry e) w =
    Some (tt, World (<[e := with_Meta (Meta r ++ (single <$> kvs)) r]> (heap w))
                    (entropy w)).
Proof.
  revert w r. induction kvs as [|kv kvs IH]; intros w r Hr.
  - rewrite range_nil, fmap_nil, app_nil_r, with_Meta_same, world_same by done.
    reflexivity.
  - rewrite range_cons.
    erewrite run_append_entry by eassumption.
    erewrite IH by apply lookup_insert_eq.
    cbn [heap entropy with_Meta Meta ID Code Status Detail].
    rewrite insert_insert_eq, <- app_assoc. reflexivity.
Qed.

Lemma entries_cons val vals :
  entries (val :: vals) = (single <$> map_to_list val) ++ entries vals.
Proof. reflexivity. Qed.

Lemma range_entries (vals : list gomap) e w r :
  heap w !! e = Some r →
  range vals (λ val, range (map_to_list val) (append_entry e)) w =
    Some (tt, World (<[e := with_Meta (Meta r ++ entries vals) r]> (heap w))
                    (entropy w)).
Proof.
  revert w r. induction vals as [|val vals IH]; intros w r Hr.
  - rewrite range_nil. change (entries []) with (@nil gomap).
    rewrite app_nil_r, with_Meta_same, world_same by done. reflexivity.
  - rewrite range_cons.
    erewrite run_bind by (apply range_append_entry; eassumption).
    erewrite IH by apply lookup_insert_eq.
    cbn [heap entropy with_Meta Meta ID Code Status Detail].
    rewrite insert_insert_eq, entries_cons, <- app_assoc. reflexivity.
Qed.

(** ** [MergeErrors] on two live pointers, aliased or not *)

Ltac run_heap :=
  repeat first
    [ progress cbn [heap entropy with_Code with_Status with_Detail with_Meta
                    ID Code Status Detail Meta negb orb]
    | rewrite lookup_insert_eq
    | rewrite lookup_insert_ne by congruence
    | rewrite insert_insert_eq
    | rewrite Z.eqb_refl
    | rewrite bool_decide_eq_true_2 by reflexivity
    | match goal with
      | H : _ !! _ = Some _ |- _ => rewrite H
      | H : (_ =? _) = _ |- _ => rewrite H
      | H : bool_decide _ = _ |- _ => rewrite H
      end
    | erewrite range_entries by (cbn [heap]; apply lookup_insert_eq) ].

Ltac same_struct a :=
  repeat match goal with
  | H : (_ =? _) = true |- _ => apply Z.eqb_eq in H
  | H : bool_decide _ = true |- _ => apply bool_decide_eq_true_1 in H
  end;
  destruct a; cbn [ID Code Status Detail Meta with_Code with_Status
                   with_Detail with_Meta] in *;
  subst; reflexivity.

Lemma MergeErrors_pointers e o a b w :
  heap w !! e = Some a →
  heap w !! o = Some b →
  MergeErrors (Resp e) (Resp o) w =
    Some (Resp e, World (<[e := merged a b]> (heap w)) (entropy w)).
Proof.
  destruct w as [h ent]. cbn [heap entropy]. intros Ha Hb.
  unfold MergeErrors.
  destruct (decide (Resp e = Nil)) as [|_]; [discriminate|].
  destruct (decide (Resp o = Nil)) as [|_]; [discriminate|].
  unfold asErrorResponse. rewrite !run_ret.
  unfold merged, orM, mbind, M_bind, mret, M_ret, load, store.
  destruct (decide (e = o)) as [<-|Hne].
  - assert (b = a) as -> by congruence. clear Hb.
    rewrite Z.eqb_refl, bool_decide_eq_true_2 by reflexivity.
    destruct (Status a =? 500) eqn:Ea; run_heap; same_struct a.
  - destruct (Status a =? 500) eqn:Ea, (Status b =? 500) eqn:Eb,
             (Status a =? Status b) eqn:Eab,
             (bool_decide (Code a = Code b)) eqn:Ecd;
      run_heap; same_struct a.
Qed.

(** ** Promotion *)

Lemma alloc_fresh r w :
  ∃ p, alloc r w = Some (p, World (<[p := r]> (heap w)) (entropy w))
       ∧ heap w !! p = None.
Proof.
  exists (fresh (dom (heap w))). split; [reflexivity|].
  apply not_elem_of_dom, is_fresh.
Qed.

Lemma promoted_Resp p w : promoted (Resp p) w = heap w !! p.
Proof. reflexivity. Qed.

Lemma promoted_Plain msg w :
  promoted (Plain msg) w = Some (internal_error_response msg).
Proof.
  unfold promoted, asErrorResponse, alloc. cbn [heap]. apply lookup_insert_eq.
Qed.

Lemma promoted_Nil w : promoted Nil w = None.
Proof. reflexivity. Qed.

(** Promotion leaves the live structs alone and returns a live pointer. *)
Lemma asErrorResponse_promoted err w r :
  promoted err w = Some r →
  ∃ p w', asErrorResponse err w = Some (p, w')
          ∧ heap w' !! p = Some r
          ∧ entropy w' = entropy w
          ∧ (∀ q s, heap w !! q = Some s → heap w' !! q = Some s).
Proof.
  destruct err as [|p|msg]; intros H.
  - discriminate.
  - exists p, w. rewrite promoted_Resp in H. simpl. auto.
  - rewrite promoted_Plain in H. injection H as <-.
    destruct (alloc_fresh (internal_error_response msg) w) as (p & Hp & Hnew).
    exists p, (World (<[p := internal_error_response msg]> (heap w)) (entropy w)).
    split; [exact Hp|]. cbn [heap entropy].
    split; [apply lookup_insert_eq|]. split; [reflexivity|].
    intros q s Hq. rewrite lookup_insert_ne; [done|congruence].
Qed.

Lemma promoted_mono err w w' r :
  (∀ q s, heap w !! q = Some s → heap w' !! q = Some s) →
  promoted err w = Some r → promoted err w' = Some r.
Proof.
  intros Hsub. destruct err as [|p|msg].
  - discriminate.
  - rewrite !promoted_Resp. apply Hsub.
  - now rewrite !promoted_Plain.
Qed.

(** ** [MergeErrors] on two errors that are both present *)

Lemma MergeErrors_promote err other w e w1 o w2 :
  asErrorResponse err w = Some (e, w1) →
  asErrorResponse other w1 = Some (o, w2) →
  MergeErrors err other w = MergeErrors (Resp e) (Resp o) w2.
Proof.
  intros He Ho. unfold MergeErrors.
  destruct (decide (err = Nil)) as [->|_]; [discriminate|].
  destruct (decide (other = Nil)) as [->|_]; [discriminate|].
  destruct (decide (Resp e = Nil)) as [|_]; [discriminate|].
  destruct (decide (Resp o = Nil)) as [|_]; [discriminate|].
  erewrite run_bind by exact He. erewrite run_bind by exact Ho.
  unfold asErrorResponse. now rewrite !run_ret.
Qed.

Lemma MergeErrors_both err other w a b :
  promoted err w = Some a →
  promoted other w = Some b →
  ∃ e w1 w',
    asErrorResponse err w = Some (e, w1)
    ∧ MergeErrors err other w = Some (Resp e, w')
    ∧ heap w' !! e = Some (merged a b)
    ∧ entropy w' = entropy w.
Proof.
  intros Ha Hb.
  destruct (asErrorResponse_promoted _ _ _ Ha) as (e & w1 & He & Hea & Hent1 & Hsub1).
  pose proof (promoted_mono _ _ _ _ Hsub1 Hb) as Hb1.
  destruct (asErrorResponse_promoted _ _ _ Hb1) as (o & w2 & Ho & Hob & Hent2 & Hsub2).
  exists e, w1. eexists. split; [exact He|].
  rewrite (MergeErrors_promote _ _ _ _ _ _ _ He Ho).
  rewrite (MergeErrors_pointers e o a b w2) by auto.
  split; [reflexivity|]. cbn [heap entropy].
  split; [apply lookup_insert_eq|congruence].
Qed.

(** ** The pairing loop of a class invocation *)

Lemma half_succ_succ n : ((S (S n) + 1) / 2 = S ((n + 1) / 2))%nat.
Proof.
  replace (S (S n) + 1)%nat with (n + 1 + 1 * 2)%nat by lia.
  rewrite Nat.div_add by lia. lia.
Qed.

Lemma pair_up_length keyvals :
  length (pair_up keyvals) = ((length keyvals + 1) / 2)%nat.
Proof.
  remember (length keyvals) as n eqn:Hn.
  assert (Hle : (length keyvals ≤ n)%nat) by lia. rewrite Hn. clear Hn.
  revert keyvals Hle. induction n as [|n IH]; intros keyvals Hle.
  - destruct keyvals; [reflexivity|simpl in Hle; lia].
  - destruct keyvals as [|k [|v rest]]; [reflexivity..|].
    cbn [pair_up length]. rewrite IH by (simpl in Hle; lia).
    now rewrite half_succ_succ.
Qed.

Lemma pair_up_app pre rest j :
  length pre = (2 * j)%nat →
  pair_up (pre ++ rest) = pair_up pre ++ pair_up rest.
Proof.
  revert pre. induction j as [|j IH]; intros pre Hlen.
  - destruct pre; [reflexivity|discriminate].
  - destruct pre as [|k [|v pre]]; simpl in Hlen; try lia.
    cbn [app pair_up]. rewrite IH by lia. reflexivity.
Qed.

Lemma fill_meta_done fuel keyvals i meta :
  (length keyvals ≤ i)%nat → fill_meta fuel keyvals i meta = meta.
Proof.
  intros H. destruct fuel; [reflexivity|]. cbn [fill_meta].
  now rewrite (proj2 (Nat.ltb_ge _ _)) by exact H.
Qed.

Lemma fill_meta_pair_up fuel pre rest j :
  length pre = (2 * j)%nat →
  (length rest ≤ fuel)%nat →
  fill_meta fuel (pre ++ rest) (length pre)
    (pair_up pre ++ replicate ((length rest + 1) / 2)%nat ∅)
  = pair_up pre ++ pair_up rest.
Proof.
  revert pre rest j. induction fuel as [|fuel IH]; intros pre rest j Hpre Hfuel.
  - destruct rest; [|simpl in Hfuel; lia]. cbn. reflexivity.
  - assert (Hj : length (pair_up pre) = j).
    { rewrite pair_up_length, Hpre.
      replace (2 * j + 1)%nat with (1 + j * 2)%nat by lia.
      rewrite Nat.div_add by lia. reflexivity. }
    assert (Hi : (length pre / 2)%nat = j).
    { rewrite Hpre, Nat.mul_comm. apply Nat.div_mul. lia. }
    destruct rest as [|k [|v rest]].
    + rewrite fill_meta_done by (rewrite app_nil_r; lia). reflexivity.
    + cbn [fill_meta]. rewrite length_app. cbn [length].
      rewrite (proj2 (Nat.ltb_lt _ _)) by lia.
      rewrite lookup_app_r, Nat.sub_diag by lia. cbn [lookup list_lookup].
      rewrite (proj2 (Nat.ltb_ge _ _)) by lia.
      rewrite fill_meta_done by (rewrite length_app; simpl; lia).
      rewrite Hi, <- Hj. cbn [replicate Nat.div].
      change ((0 + 1 + 1) / 2)%nat with 1%nat. cbn [replicate pair_up].
      rewrite insert_app_r_alt, Nat.sub_diag by lia. reflexivity.
    + cbn [fill_meta]. rewrite length_app. cbn [length].
      rewrite (proj2 (Nat.ltb_lt _ _)) by lia.
      rewrite lookup_app_r, Nat.sub_diag by lia. cbn [lookup list_lookup].
      rewrite (proj2 (Nat.ltb_lt _ _)) by lia.
      rewrite lookup_app_r by lia.
      replace (length pre + 1 - length pre)%nat with 1%nat by lia.
      cbn [lookup list_lookup default].
      rewrite half_succ_succ. cbn [replicate]. rewrite Hi, <- Hj at 1.
      rewrite insert_app_r_alt, Nat.sub_diag by lia. cbn [insert list_insert].
      replace (pre ++ k :: v :: rest) with ((pre ++ [k; v]) ++ rest)
        by now rewrite <- app_assoc.
      replace (length pre + 2)%nat with (length (pre ++ [k; v]))
        by (rewrite length_app; reflexivity).
      replace (pair_up pre ++ {[Sprint_v k := v]} :: replicate ((length rest + 1) / 2) ∅)
        with (pair_up (pre ++ [k; v]) ++ replicate ((length rest + 1) / 2) (∅ : gomap))
        by (rewrite (pair_up_app pre [k; v] j Hpre), <- app_assoc; reflexivity).
      rewrite (IH (pre ++ [k; v]) rest (S j))
        by (rewrite ?length_app; simpl in *; lia).
      rewrite (pair_up_app pre [k; v] j Hpre), <- app_assoc. reflexivity.
Qed.

Lemma build_meta_pair_up keyvals : build_meta keyvals = pair_up keyvals.
Proof.
  unfold build_meta.
  exact (fill_meta_pair_up (length keyvals) [] keyvals 0 eq_refl (le_n _)).
Qed.

Lemma pair_up_lookup keyvals j k :
  keyvals !! (2 * j)%nat = Some k →
  pair_up keyvals !! j =
    Some {[Sprint_v k := default (VString "MISSING") (keyvals !! (2 * j + 1)%nat)]}.
Proof.
  revert keyvals. induction j as [|j IH]; intros keyvals Hk.
  - destruct keyvals as [|k' [|v rest]]; simpl in Hk; [discriminate|..];
      injection Hk as ->; reflexivity.
  - replace (2 * S j)%nat with (S (S (2 * j))) in * by lia.
    destruct keyvals as [|k' [|v rest]]; simpl in Hk; try discriminate.
    cbn [pair_up]. rewrite lookup_cons_ne_0 by lia. cbn [Nat.pred].
    rewrite (IH rest Hk). reflexivity.
Qed.

Lemma pair_up_single_key keyvals : Forall single_key (pair_up keyvals).
Proof.
  remember (length keyvals) as n eqn:Hn.
  assert (Hle : (length keyvals ≤ n)%nat) by lia. clear Hn.
  revert keyvals Hle. induction n as [|n IH]; intros keyvals Hle.
  - destruct keyvals; [constructor|simpl in Hle; lia].
  - destruct keyvals as [|k [|v rest]]; cbn [pair_up].
    + constructor.
    + repeat constructor. now eexists _, _.
    + constructor; [now eexists _, _|]. apply IH. simpl in Hle. lia.
Qed.

Lemma entries_single_key vals : Forall single_key vals → entries vals = vals.
Proof.
  induction 1 as [|val vals (k & v & ->) _ IH]; [reflexivity|].
  rewrite entries_cons, IH, map_to_list_singleton. reflexivity.
Qed.

(** ** Invoking a class *)

Lemma NewErrorClass_run code status message keyvals w :
  ∃ p, heap w !! p = None
    ∧ NewErrorClass code status message keyvals w =
        Some (Resp p,
              World (<[p := mkErrorResponse (Base64.EncodeToString (id_bytes w))
                               code status (coerce_message message)
                               (pair_up keyvals)]> (heap w))
                    (drop 6 (entropy w))).
Proof.
  exists (fresh (dom (heap w))). split.
  - apply not_elem_of_dom, is_fresh.
  - unfold NewErrorClass. rewrite build_meta_pair_up. reflexivity.
Qed.

(** ** Identifiers of class-built errors *)

Lemma id_bytes_length w : length (id_bytes w) = 6%nat.
Proof.
  unfold id_bytes. rewrite length_app, length_replicate, length_take. lia.
Qed.

Lemma EncodeToString_six (bs : list Z) :
  length bs = 6%nat → String.length (Base64.EncodeToString bs) = 8%nat.
Proof.
  intros H. do 7 (destruct bs as [|? bs]; try discriminate H). reflexivity.
Qed.

(** An id is eight characters long whatever the random source delivers,
    also when it delivers nothing. *)
Lemma newErrorID_length w :
  ∃ id, newErrorID w = Some (id, World (heap w) (drop 6 (entropy w)))
        ∧ String.length id = 8%nat.
Proof.
  exists (Base64.EncodeToString (id_bytes w)). split; [reflexivity|].
  apply EncodeToString_six, id_bytes_length.
Qed.

Example newErrorID_no_entropy :
  newErrorID (World ∅ []) = Some ("AAAAAAAA"%string, World ∅ []).
Proof. reflexivity. Qed.

(** * The merge rules *)

Lemma merged_fields a b :
  ID (merged a b) = ID a
  ∧ Detail (merged a b) = Detail a +:+ "; " +:+ Detail b
  ∧ Meta (merged a b) = Meta a ++ entries (Meta b).
Proof.
  unfold merged.
  destruct (_ || _) in |- *; [|destruct (_ || _) in |- *]; repeat split.
Qed.

Lemma merged_internal a b :
  Status a = 500 ∨ Status b = 500 →
  Status (merged a b) = 500
  ∧ Code (merged a b) = if Status a =? 500 then Code a else "internal_error"%string.
Proof.
  intros H. unfold merged.
  assert ((Status a =? 500) || (Status b =? 500) = true) as ->; [|split; reflexivity].
  destruct H as [H|H]; rewrite H; [reflexivity|apply orb_true_r].
Qed.

Lemma merged_other a b :
  Status a ≠ 500 → Status b ≠ 500 →
  (Status (merged a b), Code (merged a b)) =
    if negb (Status a =? Status b) || negb (bool_decide (Code a = Code b))
    then (400, "bad_request"%string) else (Status a, Code a).
Proof.
  intros Ha Hb. apply Z.eqb_neq in Ha, Hb. unfold merged. rewrite Ha, Hb.
  cbn [orb]. now destruct (_ || _).
Qed.

(** Every map the merge appends has one key, so a meta made of single-key
    maps stays one. *)
Lemma entries_all_single_key vals : Forall single_key (entries vals).
Proof.
  induction vals as [|val vals IH]; [constructor|].
  rewrite entries_cons. apply Forall_app. split; [|exact IH].
  apply Forall_fmap, Forall_forall. intros [k v] _. now exists k, v.
Qed.

Lemma merged_single_key a b :
  Forall single_key (Meta a) → Forall single_key (Meta (merged a b)).
Proof.
  intros H. rewrite (proj2 (proj2 (merged_fields a b))).
  apply Forall_app. split; [exact H|apply entries_all_single_key].
Qed.

(** C1: when both errors are present and one of them, once promoted, has
    status 500, [MergeErrors] returns the pointer the first error promotes to
    (the first error itself when it is structured); the struct behind it
    then has status 500, has code "internal_error" if the first error was
    not a 500 before, and carries the second error's detail and meta after
    its own. *)
Theorem MergeErrors_internal_wins err other w a b :
  promoted err w = Some a →
  promoted other w = Some b →
  Status a = 500 ∨ Status b = 500 →
  ∃ e w1 w' r,
    asErrorResponse err w = Some (e, w1)
    ∧ (∀ p, err = Resp p → e = p)
    ∧ MergeErrors err other w = Some (Resp e, w')
    ∧ heap w' !! e = Some r
    ∧ Status r = 500
    ∧ (Status a ≠ 500 → Code r = "internal_error")
    ∧ Detail r = Detail a +:+ "; " +:+ Detail b
    ∧ Meta r = Meta a ++ entries (Meta b).
Proof.
  intros Ha Hb H500.
  destruct (MergeErrors_both _ _ _ _ _ Ha Hb) as (e & w1 & w' & He & Hm & Hr & _).
  exists e, w1, w', (merged a b). repeat split; try assumption.
  - intros p ->. change (Some (p, w) = Some (e, w1)) in He. congruence.
  - apply (merged_internal a b H500).
  - intros Hn. rewrite (proj2 (merged_internal a b H500)).
    apply Z.eqb_neq in Hn. now rewrite Hn.
  - apply merged_fields.
  - apply merged_fields.
Qed.

Lemma MergeErrors_internal_wins_witness :
  promoted (Resp 1) (two_errors bad_sort not_found_8) = Some bad_sort
  ∧ promoted (Plain "disk full") (two_errors bad_sort not_found_8)
      = Some (internal_error_response "disk full")
  ∧ ∃ e w1 w' r,
      asErrorResponse (Resp 1) (two_errors bad_sort not_found_8) = Some (e, w1)
      ∧ (∀ p, Resp 1 = Resp p → e = p)
      ∧ MergeErrors (Resp 1) (Plain "disk full") (two_errors bad_sort not_found_8)
          = Some (Resp e, w')
      ∧ heap w' !! e = Some r
      ∧ Status r = 500
      ∧ (Status bad_sort ≠ 500 → Code r = "internal_error")
      ∧ Detail r = "sort must be an integer; disk full"
      ∧ Meta r = Meta bad_sort ++ entries [].
Proof.
  split; [reflexivity|]. split; [reflexivity|].
  apply (MergeErrors_internal_wins (Resp 1) (Plain "disk full")
           (two_errors bad_sort not_found_8) bad_sort
           (internal_error_response "disk full"));
    [reflexivity | reflexivity | right; reflexivity].
Defined.

(** C2: when both errors are present, neither promoted error has status
    500, and the two differ in status or in code, the result has status 400
    and code "bad_request". *)
Theorem MergeErrors_disagreement err other w a b :
  promoted err w = Some a →
  promoted other w = Some b →
  Status a ≠ 500 →
  Status b ≠ 500 →
  Status a ≠ Status b ∨ Code a ≠ Code b →
  ∃ e w' r,
    MergeErrors err other w = Some (Resp e, w')
    ∧ heap w' !! e = Some r
    ∧ Status r = 400
    ∧ Code r = "bad_request".
Proof.
  intros Ha Hb Ha5 Hb5 Hdiff.
  destruct (MergeErrors_both _ _ _ _ _ Ha Hb) as (e & w1 & w' & He & Hm & Hr & _).
  exists e, w', (merged a b). split; [exact Hm|]. split; [exact Hr|].
  pose proof (merged_other a b Ha5 Hb5) as Hsc.
  assert (negb (Status a =? Status b) || negb (bool_decide (Code a = Code b)) = true)
    as Hc.
  { destruct Hdiff as [H|H].
    - apply Z.eqb_neq in H. now rewrite H.
    - rewrite (bool_decide_eq_false_2 _ H). apply orb_true_r. }
  rewrite Hc in Hsc. now injection Hsc.
Qed.

Lemma MergeErrors_disagreement_witness :
  promoted (Resp 1) (two_errors not_found_7 invalid_file_8) = Some not_found_7
  ∧ promoted (Resp 2) (two_errors not_found_7 invalid_file_8) = Some invalid_file_8
  ∧ Status not_found_7 = Status invalid_file_8
  ∧ ∃ e w' r,
      MergeErrors (Resp 1) (Resp 2) (two_errors not_found_7 invalid_file_8)
        = Some (Resp e, w')
      ∧ heap w' !! e = Some r
      ∧ Status r = 400
      ∧ Code r = "bad_request".
Proof.
  split; [reflexivity|]. split; [reflexivity|]. split; [reflexivity|].
  apply (MergeErrors_disagreement (Resp 1) (Resp 2)
           (two_errors not_found_7 invalid_file_8) not_found_7 invalid_file_8);
    [reflexivity | reflexivity | discriminate | discriminate
    | right; discriminate].
Defined.

(** C3: for two structured errors of the same status and code, not 500,
    [MergeErrors] leaves status and code as they are, joins the details with
    "; ", and appends to the first error's meta one single-key map for every
    key/value entry of the second error's meta, in order; where the second
    error's meta is a sequence of single-key maps, the result's meta is the
    first meta followed by the second, duplicate keys kept as separate
    entries. *)
Theorem MergeErrors_same_class e o w a b :
  heap w !! e = Some a →
  heap w !! o = Some b →
  Status a = Status b →
  Code a = Code b →
  Status a ≠ 500 →
  ∃ w' r,
    MergeErrors (Resp e) (Resp o) w = Some (Resp e, w')
    ∧ heap w' !! e = Some r
    ∧ Status r = Status a
    ∧ Code r = Code a
    ∧ Detail r = Detail a +:+ "; " +:+ Detail b
    ∧ Meta r = Meta a ++ entries (Meta b)
    ∧ (Forall single_key (Meta b) → Meta r = Meta a ++ Meta b).
Proof.
  intros Ha Hb Hs Hc Ha5.
  rewrite (MergeErrors_pointers e o a b w Ha Hb).
  eexists _, (merged a b). split; [reflexivity|]. cbn [heap].
  split; [apply lookup_insert_eq|].
  assert (Hb5 : Status b ≠ 500) by congruence.
  pose proof (merged_other a b Ha5 Hb5) as Hsc.
  rewrite Hs, Z.eqb_refl, bool_decide_eq_true_2 in Hsc by exact Hc.
  cbn [negb orb] in Hsc. injection Hsc as Hst Hco.
  destruct (merged_fields a b) as (_ & Hd & Hm).
  repeat split; try assumption; try congruence.
  intros Hsingle. now rewrite Hm, entries_single_key.
Qed.

Lemma MergeErrors_same_class_witness :
  heap (two_errors not_found_7 not_found_8) !! 1%positive = Some not_found_7
  ∧ heap (two_errors not_found_7 not_found_8) !! 2%positive = Some not_found_8
  ∧ ∃ w' r,
      MergeErrors (Resp 1) (Resp 2) (two_errors not_found_7 not_found_8)
        = Some (Resp 1, w')
      ∧ heap w' !! 1%positive = Some r
      ∧ Status r = 404
      ∧ Code r = "not_found"
      ∧ Detail r = "no such bottle; no such account"
      ∧ Meta r = Meta not_found_7 ++ entries (Meta not_found_8)
      ∧ (Forall single_key (Meta not_found_8) →
         Meta r = [{["id" := VString "7"]}; {["id" := VString "8"]};
                   {["kind" := VString "account"]}]).
Proof.
  split; [reflexivity|]. split; [reflexivity|].
  apply (MergeErrors_same_class 1 2 (two_errors not_found_7 not_found_8)
           not_found_7 not_found_8);
    [reflexivity | reflexivity | reflexivity | reflexivity | discriminate].
Defined.

(** * Absent errors *)

Lemma live_promoted w err : err ≠ Nil → live w err → is_Some (promoted err w).
Proof.
  destruct err as [|p|msg]; intros Hn Hl.
  - congruence.
  - exact Hl.
  - rewrite promoted_Plain. eauto.
Qed.

Lemma MergeErrors_Nil_l other w :
  other ≠ Nil →
  MergeErrors Nil other w = (p ← asErrorResponse other; mret (Resp p)) w.
Proof.
  intros Hn. unfold MergeErrors.
  destruct (decide (Nil = Nil)) as [_|]; [|congruence].
  destruct (decide (other = Nil)); [congruence|reflexivity].
Qed.

Lemma MergeErrors_Nil_r err w :
  err ≠ Nil →
  MergeErrors err Nil w = (p ← asErrorResponse err; mret (Resp p)) w.
Proof.
  intros Hn. unfold MergeErrors.
  destruct (decide (err = Nil)); [congruence|].
  destruct (decide (Nil = Nil)) as [_|]; [reflexivity|congruence].
Qed.

Lemma MergeErrors_one err w r :
  promoted err w = Some r →
  ∃ p w', asErrorResponse err w = Some (p, w')
          ∧ (p ← asErrorResponse err; mret (Resp p)) w = Some (Resp p, w')
          ∧ heap w' !! p = Some r.
Proof.
  intros H.
  destruct (asErrorResponse_promoted _ _ _ H) as (p & w' & Hp & Hr & _).
  exists p, w'. split; [exact Hp|]. split; [|exact Hr].
  now erewrite run_bind by exact Hp.
Qed.

(** C5: [MergeErrors] returns on every pair of arguments.  On two nil
    errors it returns nil and changes nothing; when one argument is nil the
    call with the arguments swapped returns the same, and that is what
    [asErrorResponse] makes of the argument that is present; and nil is
    returned only when both arguments are nil. *)
Theorem MergeErrors_total a b w :
  live w a →
  live w b →
  ∃ r w',
    MergeErrors a b w = Some (r, w')
    ∧ (r = Nil ↔ a = Nil ∧ b = Nil)
    ∧ (a = Nil → b = Nil → w' = w)
    ∧ (a = Nil ∨ b = Nil → MergeErrors b a w = Some (r, w'))
    ∧ (a = Nil → b ≠ Nil → ∃ p, r = Resp p ∧ asErrorResponse b w = Some (p, w'))
    ∧ (b = Nil → a ≠ Nil → ∃ p, r = Resp p ∧ asErrorResponse a w = Some (p, w')).
Proof.
  intros La Lb.
  destruct (decide (a = Nil)) as [->|Ha], (decide (b = Nil)) as [->|Hb].
  - exists Nil, w. repeat split; tauto.
  - destruct (live_promoted w b Hb Lb) as [rb Hrb].
    destruct (MergeErrors_one b w rb Hrb) as (p & w' & Hp & Hrun & _).
    exists (Resp p), w'. rewrite MergeErrors_Nil_l, MergeErrors_Nil_r by exact Hb.
    split; [exact Hrun|]. split; [split; [discriminate|tauto]|].
    split; [congruence|]. split; [auto|]. split; [eauto|congruence].
  - destruct (live_promoted w a Ha La) as [ra Hra].
    destruct (MergeErrors_one a w ra Hra) as (p & w' & Hp & Hrun & _).
    exists (Resp p), w'. rewrite MergeErrors_Nil_l, MergeErrors_Nil_r by exact Ha.
    split; [exact Hrun|]. split; [split; [discriminate|tauto]|].
    split; [congruence|]. split; [auto|]. split; [congruence|eauto].
  - destruct (live_promoted w a Ha La) as [ra Hra].
    destruct (live_promoted w b Hb Lb) as [rb Hrb].
    destruct (MergeErrors_both _ _ _ _ _ Hra Hrb) as (e & w1 & w' & _ & Hm & _).
    exists (Resp e), w'. split; [exact Hm|].
    split; [split; [discriminate|tauto]|]. split; [congruence|].
    split; [tauto|]. split; congruence.
Qed.

Lemma MergeErrors_total_witness :
  live (two_errors not_found_7 bad_sort) Nil
  ∧ live (two_errors not_found_7 bad_sort) (Plain "disk full")
  ∧ ∃ r w',
      MergeErrors Nil (Plain "disk full") (two_errors not_found_7 bad_sort)
        = Some (r, w')
      ∧ (r = Nil ↔ Nil = Nil ∧ Plain "disk full" = Nil)
      ∧ (Nil = Nil → Plain "disk full" = Nil → w' = two_errors not_found_7 bad_sort)
      ∧ (Nil = Nil ∨ Plain "disk full" = Nil →
         MergeErrors (Plain "disk full") Nil (two_errors not_found_7 bad_sort)
           = Some (r, w'))
      ∧ (Nil = Nil → Plain "disk full" ≠ Nil →
         ∃ p, r = Resp p
              ∧ asErrorResponse (Plain "disk full") (two_errors not_found_7 bad_sort)
                  = Some (p, w'))
      ∧ (Plain "disk full" = Nil → Nil ≠ Nil →
         ∃ p, r = Resp p
              ∧ asErrorResponse Nil (two_errors not_found_7 bad_sort) = Some (p, w')).
Proof.
  split; [exact I|]. split; [exact I|].
  apply (MergeErrors_total Nil (Plain "disk full")
           (two_errors not_found_7 bad_sort)); exact I.
Defined.

(** * Identity of the surviving error *)

(** C6: whatever is merged, the struct [MergeErrors] returns carries the id
    the surviving error had after promotion, and a structured survivor is
    returned as the same pointer: no id is generated or overwritten. *)
Theorem MergeErrors_keeps_id err other w s :
  promoted (survivor err other) w = Some s →
  live w other →
  ∃ r w' x,
    MergeErrors err other w = Some (r, w')
    ∧ deref r w' = Some x
    ∧ ID x = ID s
    ∧ (∀ p, survivor err other = Resp p → r = Resp p)
    ∧ entropy w' = entropy w.
Proof.
  unfold survivor. intros Hs Lo.
  destruct (decide (err = Nil)) as [->|Ha].
  - assert (Hb : other ≠ Nil) by (intros ->; discriminate).
    destruct (asErrorResponse_promoted _ _ _ Hs) as (p & w' & Hp & Hr & Hent & _).
    exists (Resp p), w', s. rewrite MergeErrors_Nil_l by exact Hb.
    erewrite run_bind by exact Hp. repeat split; try assumption.
    intros q ->. change (Some (q, w) = Some (p, w')) in Hp. congruence.
  - destruct (decide (other = Nil)) as [->|Hb].
    + destruct (asErrorResponse_promoted _ _ _ Hs) as (p & w' & Hp & Hr & Hent & _).
      exists (Resp p), w', s. rewrite MergeErrors_Nil_r by exact Ha.
      erewrite run_bind by exact Hp. repeat split; try assumption.
      intros q ->. change (Some (q, w) = Some (p, w')) in Hp. congruence.
    + destruct (live_promoted w other Hb Lo) as [rb Hrb].
      destruct (MergeErrors_both _ _ _ _ _ Hs Hrb)
        as (e & w1 & w' & He & Hm & Hr & Hent).
      exists (Resp e), w', (merged s rb). repeat split; try assumption.
      * apply merged_fields.
      * intros q ->. change (Some (q, w) = Some (e, w1)) in He. congruence.
Qed.

Lemma MergeErrors_keeps_id_witness :
  promoted (survivor (Resp 1) (Resp 2)) (two_errors not_found_7 bad_sort)
    = Some not_found_7
  ∧ live (two_errors not_found_7 bad_sort) (Resp 2)
  ∧ ∃ r w' x,
      MergeErrors (Resp 1) (Resp 2) (two_errors not_found_7 bad_sort) = Some (r, w')
      ∧ deref r w' = Some x
      ∧ ID x = "AQIDBAUG"
      ∧ (∀ p, survivor (Resp 1) (Resp 2) = Resp p → r = Resp p)
      ∧ entropy w' = entropy (two_errors not_found_7 bad_sort).
Proof.
  split; [reflexivity|].
  split; [exists bad_sort; reflexivity|].
  apply (MergeErrors_keeps_id (Resp 1) (Resp 2)
           (two_errors not_found_7 bad_sort) not_found_7);
    [reflexivity | exists bad_sort; reflexivity].
Defined.

(** * An internal first error keeps its code *)

(** C10: when the first argument is a structured error of status 500, the
    merge leaves its code as it was; and the code of a structured first
    argument becomes "internal_error" without having been so only when that
    argument was not a 500 and the promoted second one is. *)
Theorem MergeErrors_internal_code_kept e other w a b :
  heap w !! e = Some a →
  promoted other w = Some b →
  ∃ w' r,
    MergeErrors (Resp e) other w = Some (Resp e, w')
    ∧ heap w' !! e = Some r
    ∧ (Status a = 500 → Code r = Code a)
    ∧ (Code r = "internal_error" → Code a ≠ "internal_error" →
       Status a ≠ 500 ∧ Status b = 500).
Proof.
  intros Ha Hb.
  destruct (MergeErrors_both (Resp e) other w a b Ha Hb)
    as (e' & w1 & w' & He & Hm & Hr & _).
  change (Some (e, w) = Some (e', w1)) in He. injection He as <- <-.
  exists w', (merged a b). split; [exact Hm|]. split; [exact Hr|]. split.
  - intros H5. rewrite (proj2 (merged_internal a b (or_introl H5))).
    apply Z.eqb_eq in H5. now rewrite H5.
  - intros Hie Hne.
    destruct (Z.eq_dec (Status a) 500) as [Ha5|Ha5].
    + rewrite (proj2 (merged_internal a b (or_introl Ha5))) in Hie.
      apply Z.eqb_eq in Ha5. rewrite Ha5 in Hie. contradiction.
    + split; [exact Ha5|].
      destruct (Z.eq_dec (Status b) 500) as [Hb5|Hb5]; [exact Hb5|].
      pose proof (merged_other a b Ha5 Hb5) as Hsc. rewrite Hie in Hsc.
      destruct (_ || _) in Hsc; [discriminate|].
      injection Hsc as _ Hc. congruence.
Qed.

Lemma MergeErrors_internal_code_kept_witness :
  heap after_internal !! 1%positive
    = Some (mkErrorResponse "AQIDBAUG" "internal" 500 "boom" [])
  ∧ promoted (Plain "late") after_internal = Some (internal_error_response "late")
  ∧ ∃ w' r,
      MergeErrors (Resp 1) (Plain "late") after_internal = Some (Resp 1, w')
      ∧ heap w' !! 1%positive = Some r
      ∧ (500 = 500 → Code r = "internal")
      ∧ (Code r = "internal_error" → "internal" ≠ "internal_error" →
         500 ≠ 500 ∧ 500 = 500).
Proof.
  split; [reflexivity|]. split; [reflexivity|].
  apply (MergeErrors_internal_code_kept 1 (Plain "late") after_internal
           (mkErrorResponse "AQIDBAUG" "internal" 500 "boom" [])
           (internal_error_response "late")); reflexivity.
Defined.

(** * Promotion of a plain error *)

(** C4, as the code has it: promoting an error that is not structured
    allocates a new struct with status 500, code "internal_error" and the
    error's text as detail, but gives it no id: the [ID] field is the empty
    string and the random source is not read. *)
Theorem asErrorResponse_plain msg w :
  ∃ p w' r,
    asErrorResponse (Plain msg) w = Some (p, w')
    ∧ heap w !! p = None
    ∧ heap w' !! p = Some r
    ∧ Status r = 500
    ∧ Code r = "internal_error"
    ∧ Detail r = msg
    ∧ ID r = EmptyString
    ∧ entropy w' = entropy w.
Proof.
  destruct (alloc_fresh (internal_error_response msg) w) as (p & Hp & Hnew).
  exists p. eexists _, (internal_error_response msg).
  split; [exact Hp|]. split; [exact Hnew|]. cbn [heap entropy].
  split; [apply lookup_insert_eq|]. repeat split.
Qed.

(** * Error classes *)

(** C8: invoking the class made by [NewErrorClass code status] returns a
    pointer to a new struct with that code and status; its detail is the
    message itself when the message is a string, else the text of [Error()]
    when it is an error, else the text of [String()] when it is a stringer,
    else its default format; its meta has one single-key map per key/value
    pair, in the order of the arguments. *)
Theorem NewErrorClass_invocation code status message keyvals w :
  ∃ p w' r,
    NewErrorClass code status message keyvals w = Some (Resp p, w')
    ∧ heap w !! p = None
    ∧ heap w' !! p = Some r
    ∧ Code r = code
    ∧ Status r = status
    ∧ (∀ s, message = VString s → Detail r = s)
    ∧ (∀ o text, message = VOther o → obj_Error o = Some text → Detail r = text)
    ∧ (∀ o text, message = VOther o → obj_Error o = None →
         obj_String o = Some text → Detail r = text)
    ∧ (∀ o, message = VOther o → obj_Error o = None → obj_String o = None →
         Detail r = Sprint_v message)
    ∧ length (Meta r) = ((length keyvals + 1) / 2)%nat
    ∧ (∀ j k, keyvals !! (2 * j)%nat = Some k →
         Meta r !! j =
           Some {[Sprint_v k :=
                    default (VString "MISSING") (keyvals !! (2 * j + 1)%nat)]}).
Proof.
  destruct (NewErrorClass_run code status message keyvals w) as (p & Hnew & Hrun).
  exists p. eexists _, _. split; [exact Hrun|]. split; [exact Hnew|].
  cbn [heap]. split; [apply lookup_insert_eq|].
  cbn [Code Status Detail Meta]. unfold coerce_message.
  repeat split.
  - now intros s ->.
  - now intros o text -> ->.
  - now intros o text -> -> ->.
  - now intros o -> -> ->.
  - apply pair_up_length.
  - apply pair_up_lookup.
Qed.

(** C7: invoking a class with an odd number of key/value arguments returns
    an error, and the last entry of its meta maps the last argument, taken
    as key, to the string "MISSING". *)
Theorem NewErrorClass_odd_keyvals code status message keyvals w j :
  length keyvals = (2 * j + 1)%nat →
  ∃ p w' r k,
    NewErrorClass code status message keyvals w = Some (Resp p, w')
    ∧ heap w' !! p = Some r
    ∧ last keyvals = Some k
    ∧ last (Meta r) = Some {[Sprint_v k := VString "MISSING"]}.
Proof.
  intros Hlen.
  destruct (NewErrorClass_run code status message keyvals w) as (p & _ & Hrun).
  destruct (lookup_lt_is_Some_2 keyvals (2 * j)%nat) as [k Hk]; [lia|].
  exists p. eexists _, _, k. split; [exact Hrun|].
  cbn [heap]. split; [apply lookup_insert_eq|]. cbn [Meta].
  rewrite !last_lookup, pair_up_length, Hlen.
  replace (2 * j + 1 + 1)%nat with (S j * 2)%nat by lia.
  rewrite Nat.div_mul by lia.
  replace (Nat.pred (2 * j + 1)) with (2 * j)%nat by lia.
  split; [exact Hk|]. cbn [Nat.pred].
  rewrite (pair_up_lookup keyvals j k Hk).
  rewrite (lookup_ge_None_2 keyvals (2 * j + 1)) by lia. reflexivity.
Qed.

Lemma NewErrorClass_odd_keyvals_witness :
  length [VString "param"; VString "sort"; VString "value"] = (2 * 1 + 1)%nat
  ∧ ∃ p w' r k,
    ErrInvalidRequest (VString "bad sort")
      [VString "param"; VString "sort"; VString "value"] (World ∅ [])
      = Some (Resp p, w')
    ∧ heap w' !! p = Some r
    ∧ last [VString "param"; VString "sort"; VString "value"] = Some k
    ∧ last (Meta r) = Some {[Sprint_v k := VString "MISSING"]}.
Proof.
  split; [reflexivity|].
  apply (NewErrorClass_odd_keyvals "invalid_request" 400 (VString "bad sort")
           [VString "param"; VString "sort"; VString "value"] (World ∅ []) 1).
  reflexivity.
Defined.

(** * Two validation failures of one request *)

Lemma merge_two_param_errors_run w :
  ∃ p w',
    merge_two_param_errors w = Some (Resp p, w')
    ∧ heap w' !! p =
        Some (mkErrorResponse (Base64.EncodeToString (id_bytes w))
                "invalid_request" 400 two_param_errors_detail two_param_errors_meta).
Proof.
  unfold merge_two_param_errors, MissingParamError, InvalidParamTypeError,
    ErrInvalidRequest.
  destruct (NewErrorClass_run "invalid_request" 400
              (VString ("missing required parameter " +:+ Quote "id"))
              [VString "name"; VString "id"] w) as (p & Hp & Hrun1).
  erewrite run_bind by exact Hrun1.
  match type of Hrun1 with _ = Some (_, ?w1) =>
    destruct (NewErrorClass_run "invalid_request" 400
                (VString ("invalid value " +:+ Sprint_sharp_v (VString "xx")
                          +:+ " for parameter " +:+ Quote "sort"
                          +:+ ", must be a " +:+ "integer"))
                [VString "param"; VString "sort"; VString "value"; VString "xx";
                 VString "expected"; VString "integer"] w1) as (q & Hq & Hrun2)
  end.
  erewrite run_bind by exact Hrun2. cbn [heap entropy] in Hq |- *.
  assert (Hpq : p ≠ q) by (intros ->; rewrite lookup_insert_eq in Hq; discriminate).
  erewrite MergeErrors_pointers;
    [| cbn [heap]; rewrite lookup_insert_ne by congruence; apply lookup_insert_eq
     | cbn [heap]; apply lookup_insert_eq ].
  exists p. eexists. split; [reflexivity|]. cbn [heap].
  rewrite lookup_insert_eq. unfold merged. cbn [Status Code ID Detail Meta].
  rewrite entries_single_key by apply pair_up_single_key. reflexivity.
Qed.

(** C9, amended: merging the error of [MissingParamError("id")] with the
    error of [InvalidParamTypeError("sort", "xx", "integer")] gives one
    struct with status 400, code "invalid_request", the two messages joined
    by "; " as detail, and a meta of exactly four entries: the one entry of
    the first helper followed by the three entries of the second, one per
    key/value pair. *)
Theorem merge_two_param_errors_result w :
  ∃ p w' r,
    merge_two_param_errors w = Some (Resp p, w')
    ∧ heap w' !! p = Some r
    ∧ Status r = 400
    ∧ Code r = "invalid_request"
    ∧ Detail r =
        ("missing required parameter " +:+ Quote "id") +:+ "; "
        +:+ ("invalid value " +:+ Quote "xx" +:+ " for parameter " +:+ Quote "sort"
             +:+ ", must be a integer")
    ∧ Meta r = [{["name" := VString "id"]}; {["param" := VString "sort"]};
                {["value" := VString "xx"]}; {["expected" := VString "integer"]}]
    ∧ length (Meta r) = 4%nat.
Proof.
  destruct (merge_two_param_errors_run w) as (p & w' & Hrun & Hr).
  exists p, w'. eexists. split; [exact Hrun|]. split; [exact Hr|].
  repeat split.
Qed.

(** C9 as stated fails: the merged meta does not have exactly two entries. *)
Lemma merge_two_param_errors_not_two_entries :
  ¬ ∃ p w' r,
      merge_two_param_errors (World ∅ []) = Some (Resp p, w')
      ∧ heap w' !! p = Some r
      ∧ Status r = 400
      ∧ Code r = "invalid_request"
      ∧ length (Meta r) = 2%nat.
Proof.
  intros (p & w' & r & Hrun & Hr & _ & _ & Hlen).
  destruct (merge_two_param_errors_run (World ∅ [])) as (p' & w'' & Hrun' & Hr').
  rewrite Hrun in Hrun'. injection Hrun' as <- <-.
  rewrite Hr in Hr'. injection Hr' as ->. discriminate Hlen.
Qed.

(** * Further properties of the merge *)

Lemma MergeErrors_both_frame err other w a b :
  promoted err w = Some a →
  promoted other w = Some b →
  ∃ e w',
    MergeErrors err other w = Some (Resp e, w')
    ∧ heap w' !! e = Some (merged a b)
    ∧ entropy w' = entropy w
    ∧ (∀ q s, q ≠ e → heap w !! q = Some s → heap w' !! q = Some s).
Proof.
  intros Ha Hb.
  destruct (asErrorResponse_promoted _ _ _ Ha) as (e & w1 & He & Hea & Hent1 & Hsub1).
  pose proof (promoted_mono _ _ _ _ Hsub1 Hb) as Hb1.
  destruct (asErrorResponse_promoted _ _ _ Hb1) as (o & w2 & Ho & Hob & Hent2 & Hsub2).
  exists e. eexists.
  rewrite (MergeErrors_promote _ _ _ _ _ _ _ He Ho).
  rewrite (MergeErrors_pointers e o a b w2) by auto.
  split; [reflexivity|]. cbn [heap entropy].
  split; [apply lookup_insert_eq|]. split; [congruence|].
  intros q s Hq Hs. rewrite lookup_insert_ne by congruence. auto.
Qed.



Lemma merged_status_500 a b :
  Status (merged a b) = 500 ↔ Status a = 500 ∨ Status b = 500.
Proof.
  split.
  - intros H.
    destruct (Z.eq_dec (Status a) 500) as [|Ha]; [tauto|].
    destruct (Z.eq_dec (Status b) 500) as [|Hb]; [tauto|].
    pose proof (merged_other a b Ha Hb) as Hsc. rewrite H in Hsc.
    destruct (_ || _) in Hsc; [discriminate|]. injection Hsc as Hs _. congruence.
  - intros H. apply (merged_internal a b H).
Qed.

(** The status of a merge is 500 exactly when one of the two promoted
    errors was a 500; otherwise the result is the first error's own status
    and code, or 400 with code "bad_request". *)
Theorem MergeErrors_status_cases err other w a b :
  promoted err w = Some a →
  promoted other w = Some b →
  ∃ e w' r,
    MergeErrors err other w = Some (Resp e, w')
    ∧ heap w' !! e = Some r
    ∧ (Status r = 500 ↔ Status a = 500 ∨ Status b = 500)
    ∧ (Status r ≠ 500 →
       (Status r = Status a ∧ Code r = Code a
        ∧ Status b = Status a ∧ Code b = Code a)
       ∨ (Status r = 400 ∧ Code r = "bad_request"
          ∧ (Status b ≠ Status a ∨ Code b ≠ Code a))).
Proof.
  intros Ha Hb.
  destruct (MergeErrors_both_frame _ _ _ _ _ Ha Hb) as (e & w' & Hm & Hr & _).
  exists e, w', (merged a b). split; [exact Hm|]. split; [exact Hr|].
  split; [apply merged_status_500|].
  intros Hn.
  assert (Ha5 : Status a ≠ 500) by (intros H; apply Hn, merged_status_500; tauto).
  assert (Hb5 : Status b ≠ 500) by (intros H; apply Hn, merged_status_500; tauto).
  pose proof (merged_other a b Ha5 Hb5) as Hsc.
  destruct (Z.eq_dec (Status a) (Status b)) as [Es|Es];
    [destruct (decide (Code a = Code b)) as [Ec|Ec]|].
  - rewrite Es, Z.eqb_refl, bool_decide_eq_true_2 in Hsc by exact Ec.
    cbn [negb orb] in Hsc. injection Hsc as Hs Hc.
    left. repeat split; congruence.
  - rewrite (bool_decide_eq_false_2 _ Ec), orb_true_r in Hsc.
    injection Hsc as Hs Hc.
    right. split; [exact Hs|]. split; [exact Hc|]. right. congruence.
  - apply Z.eqb_neq in Es as Es'. rewrite Es' in Hsc. cbn [negb orb] in Hsc.
    injection Hsc as Hs Hc.
    right. split; [exact Hs|]. split; [exact Hc|]. left. congruence.
Qed.

Lemma MergeErrors_status_cases_witness :
  promoted (Resp 1) (two_errors not_found_7 bad_sort) = Some not_found_7
  ∧ promoted (Resp 2) (two_errors not_found_7 bad_sort) = Some bad_sort
  ∧ ∃ e w' r,
      MergeErrors (Resp 1) (Resp 2) (two_errors not_found_7 bad_sort)
        = Some (Resp e, w')
      ∧ heap w' !! e = Some r
      ∧ (Status r = 500 ↔ Status not_found_7 = 500 ∨ Status bad_sort = 500)
      ∧ (Status r ≠ 500 →
         (Status r = Status not_found_7 ∧ Code r = Code not_found_7
          ∧ Status bad_sort = Status not_found_7 ∧ Code bad_sort = Code not_found_7)
         ∨ (Status r = 400 ∧ Code r = "bad_request"
            ∧ (Status bad_sort ≠ Status not_found_7
               ∨ Code bad_sort ≠ Code not_found_7))).
Proof.
  split; [reflexivity|]. split; [reflexivity|].
  apply (MergeErrors_status_cases (Resp 1) (Resp 2)
           (two_errors not_found_7 bad_sort) not_found_7 bad_sort); reflexivity.
Defined.

(** Merging an error into itself (the same pointer twice) keeps its status
    and code whatever they are, repeats its detail around "; ", and appends
    its own entries to its meta. *)
Theorem MergeErrors_self e w a :
  heap w !! e = Some a →
  ∃ w' r,
    MergeErrors (Resp e) (Resp e) w = Some (Resp e, w')
    ∧ heap w' !! e = Some r
    ∧ ID r = ID a
    ∧ Status r = Status a
    ∧ Code r = Code a
    ∧ Detail r = Detail a +:+ "; " +:+ Detail a
    ∧ Meta r = Meta a ++ entries (Meta a).
Proof.
  intros Ha. rewrite (MergeErrors_pointers e e a a w Ha Ha).
  eexists _, (merged a a). split; [reflexivity|]. cbn [heap].
  split; [apply lookup_insert_eq|].
  destruct (merged_fields a a) as (Hid & Hd & Hm).
  split; [exact Hid|].
  assert (Status (merged a a) = Status a ∧ Code (merged a a) = Code a) as [Hs Hc].
  { destruct (Z.eq_dec (Status a) 500) as [H5|H5].
    - destruct (merged_internal a a (or_introl H5)) as [Hs Hc].
      apply Z.eqb_eq in H5 as H5'. rewrite H5' in Hc. split; congruence.
    - pose proof (merged_other a a H5 H5) as Hsc.
      rewrite Z.eqb_refl, bool_decide_eq_true_2 in Hsc by reflexivity.
      cbn [negb orb] in Hsc. injection Hsc as Hs Hc. split; assumption. }
  repeat split; assumption.
Qed.

Lemma MergeErrors_self_witness :
  heap (two_errors not_found_7 bad_sort) !! 1%positive = Some not_found_7
  ∧ ∃ w' r,
      MergeErrors (Resp 1) (Resp 1) (two_errors not_found_7 bad_sort)
        = Some (Resp 1, w')
      ∧ heap w' !! 1%positive = Some r
      ∧ ID r = "AQIDBAUG"
      ∧ Status r = 404
      ∧ Code r = "not_found"
      ∧ Detail r = "no such bottle; no such bottle"
      ∧ Meta r = Meta not_found_7 ++ entries (Meta not_found_7).
Proof.
  split; [reflexivity|].
  apply (MergeErrors_self 1 (two_errors not_found_7 bad_sort) not_found_7).
  reflexivity.
Defined.

(** ** Merging three errors *)




Lemma merged_class a b :
  (Status (merged a b), Code (merged a b))
  = resolve (Status a, Code a) (Status b, Code b).
Proof.
  unfold merged, resolve. cbn [fst snd].
  destruct (_ || _) in |- *; [|destruct (_ || _) in |- *]; reflexivity.
Qed.

Lemma resolve_500_l x y : x.1 = 500 → resolve x y = x.
Proof.
  destruct x as [s c]. cbn [fst]. intros ->. reflexivity.
Qed.

Lemma resolve_500_r x y :
  x.1 ≠ 500 → y.1 = 500 → resolve x y = (500, "internal_error"%string).
Proof.
  intros Hx Hy. apply Z.eqb_neq in Hx. unfold resolve.
  rewrite Hx, Hy. reflexivity.
Qed.

Lemma resolve_same x : x.1 ≠ 500 → resolve x x = x.
Proof.
  intros Hx. apply Z.eqb_neq in Hx. unfold resolve.
  rewrite Hx, Z.eqb_refl, bool_decide_eq_true_2 by reflexivity. reflexivity.
Qed.

Lemma resolve_diff x y :
  x.1 ≠ 500 → y.1 ≠ 500 → x ≠ y → resolve x y = (400, "bad_request"%string).
Proof.
  intros Hx Hy Hne. apply Z.eqb_neq in Hx, Hy. unfold resolve.
  rewrite Hx, Hy. cbn [orb].
  destruct (Z.eqb_spec x.1 y.1) as [Hs|Hs]; [|reflexivity].
  destruct (bool_decide_reflect (x.2 = y.2)) as [Hc|Hc]; [|reflexivity].
  destruct x, y. cbn [fst snd] in *. congruence.
Qed.







(** ** What the merged meta holds *)

Lemma elem_of_entries (vals : list gomap) (m : gomap) :
  m ∈ entries vals ↔
  ∃ val k v, val ∈ vals ∧ val !! k = Some v ∧ m = {[k := v]}.
Proof.
  unfold entries. rewrite list_elem_of_bind. split.
  - intros (val & Hm & Hval). apply list_elem_of_fmap in Hm as ([k v] & -> & Hkv).
    apply elem_of_map_to_list in Hkv. now exists val, k, v.
  - intros (val & k & v & Hval & Hkv & ->). exists val. split; [|exact Hval].
    apply list_elem_of_fmap. exists (k, v). split; [reflexivity|].
    now apply elem_of_map_to_list.
Qed.

(** No metadata is lost and none is invented, whatever the maps of the
    second error look like and in whatever order their keys are visited: the
    merged meta holds the maps of the first error and, for each key of each
    map of the second error, the map of that one key and its value, and
    nothing else. *)
Theorem MergeErrors_meta_members err other w a b :
  promoted err w = Some a →
  promoted other w = Some b →
  ∃ e w' r,
    MergeErrors err other w = Some (Resp e, w')
    ∧ heap w' !! e = Some r
    ∧ (∀ m, m ∈ Meta r ↔
            m ∈ Meta a
            ∨ ∃ val k v, val ∈ Meta b ∧ val !! k = Some v ∧ m = {[k := v]})
    ∧ (Forall single_key (Meta a) → Forall single_key (Meta r)).
Proof.
  intros Ha Hb.
  destruct (MergeErrors_both_frame _ _ _ _ _ Ha Hb) as (e & w' & Hm & Hr & _).
  exists e, w', (merged a b). split; [exact Hm|]. split; [exact Hr|].
  split; [|apply merged_single_key].
  intros m. rewrite (proj2 (proj2 (merged_fields a b))), elem_of_app.
  now rewrite elem_of_entries.
Qed.

Lemma MergeErrors_meta_members_witness :
  promoted (Resp 1) (two_errors not_found_7 not_found_8) = Some not_found_7
  ∧ promoted (Resp 2) (two_errors not_found_7 not_found_8) = Some not_found_8
  ∧ ∃ e w' r,
      MergeErrors (Resp 1) (Resp 2) (two_errors not_found_7 not_found_8)
        = Some (Resp e, w')
      ∧ heap w' !! e = Some r
      ∧ (∀ m, m ∈ Meta r ↔
              m ∈ Meta not_found_7
              ∨ ∃ val k v, val ∈ Meta not_found_8 ∧ val !! k = Some v
                           ∧ m = {[k := v]})
      ∧ (Forall single_key (Meta not_found_7) → Forall single_key (Meta r)).
Proof.
  split; [reflexivity|]. split; [reflexivity|].
  apply (MergeErrors_meta_members (Resp 1) (Resp 2)
           (two_errors not_found_7 not_found_8) not_found_7 not_found_8);
    reflexivity.
Defined.

(** * Identifiers *)

Lemma undigit_digit n : 0 ≤ n < 64 → undigit (Base64.digit n) = n.
Proof.
  intros Hn. rewrite <- (Z2Nat.id n) by lia.
  assert (Hk : (Z.to_nat n < 64)%nat) by lia.
  generalize dependent (Z.to_nat n). clear. intros k Hk.
  do 64 (destruct k as [|k]; [reflexivity|]). lia.
Qed.

Lemma land_63 x : Z.land x 63 = x mod 64.
Proof. change 63 with (Z.ones 6). now rewrite Z.land_ones by lia. Qed.

Lemma sextet_inj v v' k :
  0 ≤ k →
  Base64.sextet v k = Base64.sextet v' k →
  (v / 2 ^ k) mod 64 = (v' / 2 ^ k) mod 64.
Proof.
  intros Hk H. unfold Base64.sextet in H.
  apply (f_equal undigit) in H.
  assert (Hr : ∀ x, 0 ≤ Z.land x 63 < 64).
  { intros x. rewrite land_63. apply Z.mod_pos_bound. lia. }
  rewrite !undigit_digit in H by apply Hr.
  now rewrite !land_63, !Z.shiftr_div_pow2 in H by lia.
Qed.

Lemma land_shiftl_small x y n :
  0 ≤ n → 0 ≤ y < 2 ^ n → Z.land (Z.shiftl x n) y = 0.
Proof.
  intros Hn Hy. apply Z.bits_inj'. intros i Hi.
  rewrite Z.land_spec, Z.bits_0.
  destruct (Z.lt_ge_cases i n) as [Hlt|Hge].
  - now rewrite Z.shiftl_spec_low.
  - destruct (Z.eq_dec y 0) as [->|Hy0].
    + rewrite Z.bits_0. apply andb_false_r.
    + rewrite (Z.bits_above_log2 y i), andb_false_r; [reflexivity|lia|].
      apply Z.log2_lt_pow2; [lia|].
      apply Z.lt_le_trans with (2 ^ n); [lia|].
      apply Z.pow_le_mono_r; lia.
Qed.

Lemma group_value a b c :
  is_byte a → is_byte b → is_byte c →
  Z.lor (Z.lor (Z.shiftl a 16) (Z.shiftl b 8)) c = a * 65536 + b * 256 + c.
Proof.
  unfold is_byte. intros Ha Hb Hc.
  assert (H1 : Z.lor (Z.shiftl a 16) (Z.shiftl b 8) = Z.shiftl (a * 256 + b) 8).
  { replace (Z.shiftl a 16) with (Z.shiftl (Z.shiftl a 8) 8)
      by (rewrite Z.shiftl_shiftl by lia; reflexivity).
    rewrite <- Z.shiftl_lor, <- Z.add_nocarry_lor.
    - now rewrite (Z.shiftl_mul_pow2 a 8) by lia.
    - apply land_shiftl_small; [lia|]. change (2 ^ 8) with 256. lia. }
  rewrite H1, <- Z.add_nocarry_lor.
  - rewrite Z.shiftl_mul_pow2 by lia. change (2 ^ 8) with 256. lia.
  - apply land_shiftl_small; [lia|]. change (2 ^ 8) with 256. lia.
Qed.

Lemma group_inj a b c a' b' c' :
  is_byte a → is_byte b → is_byte c →
  is_byte a' → is_byte b' → is_byte c' →
  let v := Z.lor (Z.lor (Z.shiftl a 16) (Z.shiftl b 8)) c in
  let v' := Z.lor (Z.lor (Z.shiftl a' 16) (Z.shiftl b' 8)) c' in
  Base64.sextet v 18 = Base64.sextet v' 18 →
  Base64.sextet v 12 = Base64.sextet v' 12 →
  Base64.sextet v 6 = Base64.sextet v' 6 →
  Base64.sextet v 0 = Base64.sextet v' 0 →
  a = a' ∧ b = b' ∧ c = c'.
Proof.
  intros Ha Hb Hc Ha' Hb' Hc' v v' H18 H12 H6 H0.
  apply sextet_inj in H18, H12, H6, H0; try lia.
  subst v v'. rewrite !group_value in * by assumption.
  unfold is_byte in *.
  change (2 ^ 18) with 262144 in *. change (2 ^ 12) with 4096 in *.
  change (2 ^ 6) with 64 in *. change (2 ^ 0) with 1 in *.
  Z.div_mod_to_equations. lia.
Qed.

Lemma EncodeToString_six_inj (bs bs' : list Z) :
  length bs = 6%nat → length bs' = 6%nat →
  Forall is_byte bs → Forall is_byte bs' →
  Base64.EncodeToString bs = Base64.EncodeToString bs' → bs = bs'.
Proof.
  intros Hl Hl' Hb Hb' Heq.
  do 7 (destruct bs as [|? bs]; try discriminate Hl).
  do 7 (destruct bs' as [|? bs']; try discriminate Hl').
  repeat match goal with H : Forall _ (_ :: _) |- _ => apply Forall_cons in H as [? H] end.
  cbn [Base64.EncodeToString] in Heq.
  injection Heq as E1 E2 E3 E4 E5 E6 E7 E8.
  destruct (group_inj z z0 z1 z5 z6 z7) as (-> & -> & ->); try assumption.
  destruct (group_inj z2 z3 z4 z8 z9 z10) as (-> & -> & ->); try assumption.
  reflexivity.
Qed.

Lemma id_bytes_full w :
  (6 ≤ length (entropy w))%nat → id_bytes w = take 6 (entropy w).
Proof.
  intros H. unfold id_bytes. rewrite length_take.
  replace (6 - 6 `min` length (entropy w))%nat with 0%nat by lia.
  apply app_nil_r.
Qed.

(** With six bytes at hand [newErrorID] returns eight characters, takes
    exactly these six bytes from the random source, leaves the heap alone,
    and encodes them faithfully: two calls return the same id only if they
    drew the same six bytes. *)
Theorem newErrorID_faithful w1 w2 :
  (6 ≤ length (entropy w1))%nat →
  (6 ≤ length (entropy w2))%nat →
  Forall is_byte (take 6 (entropy w1)) →
  Forall is_byte (take 6 (entropy w2)) →
  ∃ id1 id2,
    newErrorID w1 = Some (id1, World (heap w1) (drop 6 (entropy w1)))
    ∧ newErrorID w2 = Some (id2, World (heap w2) (drop 6 (entropy w2)))
    ∧ String.length id1 = 8%nat
    ∧ (id1 = id2 ↔ take 6 (entropy w1) = take 6 (entropy w2)).
Proof.
  intros H1 H2 B1 B2.
  exists (Base64.EncodeToString (id_bytes w1)), (Base64.EncodeToString (id_bytes w2)).
  split; [reflexivity|]. split; [reflexivity|].
  split; [apply EncodeToString_six, id_bytes_length|].
  rewrite !id_bytes_full by assumption. split; [|now intros ->].
  apply EncodeToString_six_inj; try assumption; rewrite length_take; lia.
Qed.

Lemma newErrorID_faithful_witness :
  (6 ≤ length (entropy seven_bytes))%nat
  ∧ (6 ≤ length (entropy six_bytes))%nat
  ∧ ∃ id1 id2,
      newErrorID seven_bytes = Some (id1, World ∅ [7])
      ∧ newErrorID six_bytes = Some (id2, World ∅ [])
      ∧ String.length id1 = 8%nat
      ∧ (id1 = id2 ↔ [1; 2; 3; 4; 5; 6] = [1; 2; 3; 4; 5; 7]).
Proof.
  split; [simpl; lia|]. split; [simpl; lia|].
  apply (newErrorID_faithful seven_bytes six_bytes);
    [simpl; lia | simpl; lia | simpl | simpl];
    repeat (constructor; [unfold is_byte; lia|]); constructor.
Defined.

(** The error of [io.ReadFull] is dropped: once the random source has
    nothing left, [newErrorID] still returns, and it returns the same id on
    every call. *)
Theorem newErrorID_exhausted w :
  entropy w = [] →
  ∃ id,
    newErrorID w = Some (id, w)
    ∧ ∀ w', entropy w' = [] → newErrorID w' = Some (id, w').
Proof.
  intros H. exists "AAAAAAAA"%string.
  assert (Hrun : ∀ w', entropy w' = [] → newErrorID w' = Some ("AAAAAAAA"%string, w')).
  { intros [h ent] Hent. cbn [entropy] in Hent. subst ent. reflexivity. }
  split; [now apply Hrun|exact Hrun].
Qed.

Lemma newErrorID_exhausted_witness :
  entropy (two_errors not_found_7 bad_sort) = []
  ∧ ∃ id,
      newErrorID (two_errors not_found_7 bad_sort)
        = Some (id, two_errors not_found_7 bad_sort)
      ∧ ∀ w', entropy w' = [] → newErrorID w' = Some (id, w').
Proof.
  split; [reflexivity|].
  apply (newErrorID_exhausted (two_errors not_found_7 bad_sort)). reflexivity.
Defined.

(** * Invoking classes in sequence *)

Lemma invoke_twice c1 s1 m1 kv1 c2 s2 m2 kv2 w :
  ∃ p1 p2 id2,
    let r1 := mkErrorResponse (Base64.EncodeToString (id_bytes w)) c1 s1
                (coerce_message m1) (build_meta kv1) in
    let r2 := mkErrorResponse id2 c2 s2 (coerce_message m2) (build_meta kv2) in
    let w1 := World (<[p1 := r1]> (heap w)) (drop 6 (entropy w)) in
    heap w !! p1 = None
    ∧ heap w !! p2 = None
    ∧ p1 ≠ p2
    ∧ id2 = Base64.EncodeToString (id_bytes w1)
    ∧ NewErrorClass c1 s1 m1 kv1 w = Some (Resp p1, w1)
    ∧ NewErrorClass c2 s2 m2 kv2 w1
      = Some (Resp p2, World (<[p2 := r2]> (<[p1 := r1]> (heap w)))
                             (drop 6 (drop 6 (entropy w)))).
Proof.
  destruct (NewErrorClass_run c1 s1 m1 kv1 w) as (p1 & Hp1 & Hrun1).
  match type of Hrun1 with _ = Some (_, ?w1) =>
    destruct (NewErrorClass_run c2 s2 m2 kv2 w1) as (p2 & Hp2 & Hrun2)
  end.
  cbn [heap entropy] in Hp2, Hrun2.
  assert (Hne : p1 ≠ p2) by (intros ->; rewrite lookup_insert_eq in Hp2; discriminate).
  exists p1, p2. eexists. cbn zeta. rewrite !build_meta_pair_up.
  split; [exact Hp1|].
  split; [rewrite lookup_insert_ne in Hp2 by exact Hne; exact Hp2|].
  split; [exact Hne|]. split; [reflexivity|]. split; [exact Hrun1|exact Hrun2].
Qed.

(** Two invocations in a row, of any classes, return different pointers;
    the second leaves the struct of the first, and every older struct, as it
    was; together they take twelve bytes from the random source; and when
    these are twelve bytes, the two ids are equal only if the two draws of
    six bytes are. *)
Theorem NewErrorClass_twice c1 s1 m1 kv1 c2 s2 m2 kv2 w :
  ∃ p1 w1 r1 p2 w2 r2,
    NewErrorClass c1 s1 m1 kv1 w = Some (Resp p1, w1)
    ∧ heap w1 !! p1 = Some r1
    ∧ NewErrorClass c2 s2 m2 kv2 w1 = Some (Resp p2, w2)
    ∧ heap w2 !! p2 = Some r2
    ∧ p1 ≠ p2
    ∧ heap w2 !! p1 = Some r1
    ∧ (∀ q s, heap w !! q = Some s → heap w2 !! q = Some s)
    ∧ entropy w2 = drop 12 (entropy w)
    ∧ ((12 ≤ length (entropy w))%nat →
       Forall is_byte (take 12 (entropy w)) →
       (ID r1 = ID r2 ↔ take 6 (entropy w) = take 6 (drop 6 (entropy w)))).
Proof.
  destruct (invoke_twice c1 s1 m1 kv1 c2 s2 m2 kv2 w)
    as (p1 & p2 & id2 & Hp1 & Hp2 & Hne & Hid2 & Hrun1 & Hrun2).
  cbn zeta in *.
  eexists p1, _, _, p2, _, _. split; [exact Hrun1|]. cbn [heap entropy].
  split; [apply lookup_insert_eq|]. split; [exact Hrun2|]. cbn [heap entropy].
  split; [apply lookup_insert_eq|]. split; [exact Hne|].
  split; [rewrite lookup_insert_ne by congruence; apply lookup_insert_eq|].
  split.
  { intros q s Hq. rewrite !lookup_insert_ne by congruence. exact Hq. }
  split; [now rewrite drop_drop|].
  intros Hlen Hbytes. cbn [ID]. rewrite Hid2.
  rewrite !id_bytes_full by (cbn [entropy]; rewrite ?length_drop; lia).
  cbn [entropy].
  assert (Hsplit : take 12 (entropy w)
                   = take 6 (entropy w) ++ take 6 (drop 6 (entropy w))).
  { rewrite <- (take_drop 6 (entropy w)) at 1.
    rewrite take_app, length_take.
    replace (12 - 6 `min` length (entropy w))%nat with 6%nat by lia.
    rewrite take_take. reflexivity. }
  rewrite Hsplit in Hbytes. apply Forall_app in Hbytes as [B1 B2].
  split; [|now intros ->].
  apply EncodeToString_six_inj; try assumption;
    rewrite length_take, ?length_drop; lia.
Qed.

(** * Merging errors that classes built *)

Lemma invoke_twice_merge c1 s1 m1 kv1 c2 s2 m2 kv2 w :
  ∃ p1 w1 r1 p2 w2 r2 w',
    NewErrorClass c1 s1 m1 kv1 w = Some (Resp p1, w1)
    ∧ heap w1 !! p1 = Some r1
    ∧ NewErrorClass c2 s2 m2 kv2 w1 = Some (Resp p2, w2)
    ∧ heap w2 !! p2 = Some r2
    ∧ r1 = mkErrorResponse (Base64.EncodeToString (id_bytes w)) c1 s1
             (coerce_message m1) (build_meta kv1)
    ∧ Code r2 = c2 ∧ Status r2 = s2 ∧ Detail r2 = coerce_message m2
    ∧ Meta r2 = build_meta kv2
    ∧ (a ← NewErrorClass c1 s1 m1 kv1; b ← NewErrorClass c2 s2 m2 kv2;
       MergeErrors a b) w = Some (Resp p1, w')
    ∧ heap w' !! p1 = Some (merged r1 r2).
Proof.
  destruct (invoke_twice c1 s1 m1 kv1 c2 s2 m2 kv2 w)
    as (p1 & p2 & id2 & Hp1 & Hp2 & Hne & Hid2 & Hrun1 & Hrun2).
  cbn zeta in *.
  eexists p1, _, _, p2, _, _, _. split; [exact Hrun1|]. cbn [heap entropy].
  split; [apply lookup_insert_eq|]. split; [exact Hrun2|]. cbn [heap entropy].
  split; [apply lookup_insert_eq|]. split; [reflexivity|].
  do 4 (split; [reflexivity|]).
  erewrite run_bind by exact Hrun1. erewrite run_bind by exact Hrun2.
  erewrite MergeErrors_pointers;
    [| cbn [heap]; rewrite lookup_insert_ne by congruence; apply lookup_insert_eq
     | cbn [heap]; apply lookup_insert_eq ].
  split; [reflexivity|]. cbn [heap]. apply lookup_insert_eq.
Qed.

Lemma build_meta_single_key keyvals : Forall single_key (build_meta keyvals).
Proof. rewrite build_meta_pair_up. apply pair_up_single_key. Qed.

(** Two errors built by the same class, whatever its code and status (500
    included), merge within the class: the result keeps the class's code
    and status and the id of the first error, joins the two messages, and
    lists the key/value entries of the first invocation followed by those of
    the second. *)
Theorem same_class_merge code status m1 kv1 m2 kv2 w :
  ∃ p w' r,
    (a ← NewErrorClass code status m1 kv1;
     b ← NewErrorClass code status m2 kv2;
     MergeErrors a b) w = Some (Resp p, w')
    ∧ heap w' !! p = Some r
    ∧ Code r = code
    ∧ Status r = status
    ∧ ID r = Base64.EncodeToString (id_bytes w)
    ∧ Detail r = coerce_message m1 +:+ "; " +:+ coerce_message m2
    ∧ Meta r = build_meta kv1 ++ build_meta kv2.
Proof.
  destruct (invoke_twice_merge code status m1 kv1 code status m2 kv2 w)
    as (p1 & w1 & r1 & p2 & w2 & r2 & w' & _ & _ & _ & _
        & -> & Hc2 & Hs2 & Hd2 & Hm2 & Hrun & Hr).
  exists p1, w'. eexists. split; [exact Hrun|]. split; [exact Hr|].
  destruct (merged_fields
              (mkErrorResponse (Base64.EncodeToString (id_bytes w)) code status
                 (coerce_message m1) (build_meta kv1)) r2) as (Hid & Hd & Hm).
  rewrite Hid, Hd, Hm, Hd2, Hm2.
  rewrite entries_single_key by apply build_meta_single_key.
  cbn [ID Detail Meta].
  match goal with |- Code ?x = _ ∧ _ =>
    pose proof (merged_class
      (mkErrorResponse (Base64.EncodeToString (id_bytes w)) code status
         (coerce_message m1) (build_meta kv1)) r2) as Hcl
  end.
  cbn [Status Code] in Hcl. rewrite Hc2, Hs2 in Hcl.
  assert (Hres : resolve (status, code) (status, code) = (status, code)).
  { destruct (decide (status = 500)) as [->|Hn]; [reflexivity|].
    now apply resolve_same. }
  rewrite Hres in Hcl. injection Hcl as Hs Hc.
  repeat split; assumption.
Qed.

Lemma call_is_invocation h :
  ∃ message keyvals, call h = ErrInvalidRequest message keyvals.
Proof. destruct h; eexists _, _; reflexivity. Qed.

(** Every validation helper returns a pointer to a new struct of status 400
    and code "invalid_request" with an id of eight characters; every entry
    of its meta has one key; the structs that were there stay as they
    were. *)
Theorem helper_result h w :
  ∃ p w' r,
    call h w = Some (Resp p, w')
    ∧ heap w !! p = None
    ∧ heap w' !! p = Some r
    ∧ Status r = 400
    ∧ Code r = "invalid_request"
    ∧ String.length (ID r) = 8%nat
    ∧ Forall single_key (Meta r)
    ∧ (∀ q s, heap w !! q = Some s → heap w' !! q = Some s).
Proof.
  destruct (call_is_invocation h) as (message & keyvals & ->).
  destruct (NewErrorClass_run "invalid_request" 400 message keyvals w)
    as (p & Hnew & Hrun).
  exists p. eexists _, _. split; [exact Hrun|]. split; [exact Hnew|].
  cbn [heap]. split; [apply lookup_insert_eq|].
  cbn [Status Code ID Meta]. do 2 (split; [reflexivity|]).
  split; [apply EncodeToString_six, id_bytes_length|].
  split; [apply pair_up_single_key|].
  intros q s Hq. rewrite lookup_insert_ne by congruence. exact Hq.
Qed.

(** The errors of any two validation helpers merge into one error of status
    400 and code "invalid_request" that has the id of the first, the two
    details joined by "; ", and the meta of the first followed by the meta
    of the second. *)
Theorem helpers_merge h1 h2 w :
  ∃ p1 w1 r1 p2 w2 r2 w' r,
    call h1 w = Some (Resp p1, w1)
    ∧ heap w1 !! p1 = Some r1
    ∧ call h2 w1 = Some (Resp p2, w2)
    ∧ heap w2 !! p2 = Some r2
    ∧ (a ← call h1; b ← call h2; MergeErrors a b) w = Some (Resp p1, w')
    ∧ heap w' !! p1 = Some r
    ∧ Status r = 400
    ∧ Code r = "invalid_request"
    ∧ ID r = ID r1
    ∧ Detail r = Detail r1 +:+ "; " +:+ Detail r2
    ∧ Meta r = Meta r1 ++ Meta r2.
Proof.
  destruct (call_is_invocation h1) as (m1 & kv1 & ->).
  destruct (call_is_invocation h2) as (m2 & kv2 & ->).
  destruct (invoke_twice_merge "invalid_request" 400 m1 kv1
              "invalid_request" 400 m2 kv2 w)
    as (p1 & w1 & r1 & p2 & w2 & r2 & w' & Hrun1 & Hr1 & Hrun2 & Hr2
        & Hr1eq & Hc2 & Hs2 & Hd2 & Hm2 & Hrun & Hr).
  exists p1, w1, r1, p2, w2, r2, w', (merged r1 r2).
  do 6 (split; [assumption|]).
  destruct (merged_fields r1 r2) as (Hid & Hd & Hm).
  pose proof (merged_class r1 r2) as Hcl.
  assert (Hs1 : Status r1 = 400) by now rewrite Hr1eq.
  assert (Hc1 : Code r1 = "invalid_request") by now rewrite Hr1eq.
  rewrite Hc2, Hs2, Hs1, Hc1 in Hcl. injection Hcl as Hs Hc.
  split; [exact Hs|]. split; [exact Hc|]. split; [exact Hid|].
  split; [exact Hd|].
  rewrite Hm, Hm2. now rewrite entries_single_key by apply build_meta_single_key.
Qed.

(** * The text of an error *)

Lemma ErrorResponse_Error_run e w r :
  heap w !! e = Some r →
  ErrorResponse_Error e w = Some (meta_text (head_text r) (Meta r), w).
Proof.
  intros H. unfold ErrorResponse_Error, mbind, M_bind, load, mret, M_ret.
  do 5 (rewrite H; cbv beta iota). reflexivity.
Qed.

Lemma ErrorResponse_Error_dead e w :
  heap w !! e = None → ErrorResponse_Error e w = None.
Proof.
  intros H. unfold ErrorResponse_Error, mbind, M_bind, load.
  now rewrite H.
Qed.

Lemma meta_text_app msg l1 l2 :
  meta_text msg (l1 ++ l2) = meta_text (meta_text msg l1) l2.
Proof. apply foldl_app. Qed.

Lemma meta_text_singles msg (kvs : list (string * value)) :
  meta_text msg (single <$> kvs) = foldl add_meta_text msg kvs.
Proof.
  revert msg. induction kvs as [|[k v] kvs IH]; intros msg; [reflexivity|].
  cbn [fmap list_fmap foldl]. unfold meta_text in *. cbn [foldl].
  unfold single at 1. cbn [fst snd]. rewrite map_to_list_singleton.
  cbn [foldl]. apply IH.
Qed.

Lemma meta_text_entries msg vals : meta_text msg (entries vals) = meta_text msg vals.
Proof.
  revert msg. induction vals as [|val vals IH]; intros msg; [reflexivity|].
  rewrite entries_cons, meta_text_app, meta_text_singles, IH. reflexivity.
Qed.

(** The text of a merged error lists the metadata of the first error and
    then the metadata of the second, key by key, after a head made of the
    first error's id, the status and code the merge settled on, and the two
    details joined by "; ".  That the merge stored the second error's maps
    one key at a time does not show in the text. *)
Theorem MergeErrors_Error_text err other w a b :
  promoted err w = Some a →
  promoted other w = Some b →
  ∃ e w' r,
    MergeErrors err other w = Some (Resp e, w')
    ∧ heap w' !! e = Some r
    ∧ ErrorResponse_Error e w'
      = Some (meta_text
                (meta_text
                   ("[" +:+ ID a +:+ "] " +:+ Sprint_d (Status r) +:+ " "
                    +:+ Code r +:+ ": " +:+ (Detail a +:+ "; " +:+ Detail b))
                   (Meta a))
                (Meta b), w').
Proof.
  intros Ha Hb.
  destruct (MergeErrors_both_frame _ _ _ _ _ Ha Hb) as (e & w' & Hm & Hr & _).
  exists e, w', (merged a b). split; [exact Hm|]. split; [exact Hr|].
  rewrite (ErrorResponse_Error_run e w' _ Hr). unfold head_text.
  destruct (merged_fields a b) as (-> & -> & ->).
  now rewrite meta_text_app, meta_text_entries.
Qed.

Lemma MergeErrors_Error_text_witness :
  promoted (Resp 1) (two_errors not_found_7 not_found_8) = Some not_found_7
  ∧ promoted (Resp 2) (two_errors not_found_7 not_found_8) = Some not_found_8
  ∧ ∃ e w' r,
      MergeErrors (Resp 1) (Resp 2) (two_errors not_found_7 not_found_8)
        = Some (Resp e, w')
      ∧ heap w' !! e = Some r
      ∧ ErrorResponse_Error e w'
        = Some (meta_text
                  (meta_text
                     ("[" +:+ "AQIDBAUG" +:+ "] " +:+ Sprint_d (Status r) +:+ " "
                      +:+ Code r +:+ ": "
                      +:+ ("no such bottle" +:+ "; " +:+ "no such account"))
                     (Meta not_found_7))
                  (Meta not_found_8), w').
Proof.
  split; [reflexivity|]. split; [reflexivity|].
  apply (MergeErrors_Error_text (Resp 1) (Resp 2)
           (two_errors not_found_7 not_found_8) not_found_7 not_found_8);
    reflexivity.
Defined.

Example merged_text_sample :
  (r ← MergeErrors (Resp 1) (Resp 2); error_Error r)
    (two_errors not_found_7 not_found_8)
  = Some ("[AQIDBAUG] 404 not_found: no such bottle; no such account, id: 7, id: 8, kind: account"%string,
          World (<[1%positive := merged not_found_7 not_found_8]>
                   (heap (two_errors not_found_7 not_found_8))) []).
Proof. reflexivity. Qed.

(** An error that is not structured is promoted to a struct whose text
    begins with empty brackets, there being no id, and goes on with status
    500, code "internal_error" and the error's own text. *)
Theorem promoted_Error_text msg w :
  ∃ p w',
    asErrorResponse (Plain msg) w = Some (p, w')
    ∧ ErrorResponse_Error p w' = Some ("[] 500 internal_error: " +:+ msg, w')
    ∧ Token p w' = Some (EmptyString, w')
    ∧ ResponseStatus p w' = Some (500, w').
Proof.
  destruct (alloc_fresh (internal_error_response msg) w) as (p & Hp & _).
  exists p. eexists. split; [exact Hp|].
  assert (Hr : heap (World (<[p := internal_error_response msg]> (heap w)) (entropy w))
               !! p = Some (internal_error_response msg))
    by apply lookup_insert_eq.
  split; [now rewrite (ErrorResponse_Error_run _ _ _ Hr)|].
  unfold Token, ResponseStatus, load. now rewrite Hr.
Qed.

(** * The format helper and its error argument *)

Lemma error_Error_run err w :
  error_Error err w = None ↔ err = Nil ∨ ¬ live w err.
Proof.
  destruct err as [|p|msg]; cbn [error_Error live].
  - split; [now left|reflexivity].
  - destruct (heap w !! p) as [r|] eqn:Hp.
    + rewrite (ErrorResponse_Error_run p w r Hp). split; [discriminate|].
      intros [H|H]; [discriminate|]. destruct H. eauto.
    + rewrite (ErrorResponse_Error_dead p w Hp). split; [|reflexivity].
      intros _. right. intros [r Hr]. congruence.
  - split; [discriminate|]. intros [H|H]; [discriminate|]. now destruct H.
Qed.

Lemma error_Error_pure err w text w' :
  error_Error err w = Some (text, w') → w' = w.
Proof.
  destruct err as [|p|msg]; cbn [error_Error].
  - discriminate.
  - destruct (heap w !! p) as [r|] eqn:Hp.
    + rewrite (ErrorResponse_Error_run p w r Hp). congruence.
    + now rewrite (ErrorResponse_Error_dead p w Hp).
  - intros H. injection H as _ <-. reflexivity.
Qed.

(** [InvalidFormatError] calls [Error()] on the format error it is given: on
    a nil error (or a pointer to no struct) it panics instead of returning
    an error; on any other it returns an "invalid_request" error of status
    400 whose detail ends with the text of the format error and whose last
    meta entry holds the same text under the key "error". *)
Theorem InvalidFormatError_error_argument {Format : Type}
    (Format_s : Format → string) (Format_value : Format → value)
    (ctx target : string) (format : Format) (formatError : error) (w : world) :
  (InvalidFormatError Format_s Format_value ctx target format formatError w = None
   ↔ formatError = Nil ∨ ¬ live w formatError)
  ∧ (∀ text w0, error_Error formatError w = Some (text, w0) →
       ∃ p w' r,
         InvalidFormatError Format_s Format_value ctx target format formatError w
           = Some (Resp p, w')
         ∧ heap w' !! p = Some r
         ∧ Status r = 400
         ∧ Code r = "invalid_request"
         ∧ Detail r = ctx +:+ " must be formatted as a " +:+ Format_s format
                      +:+ " but got value " +:+ Quote target +:+ ", " +:+ text
         ∧ length (Meta r) = 4%nat
         ∧ last (Meta r) = Some {["error" := VString text]}).
Proof.
  split.
  - rewrite <- error_Error_run. unfold InvalidFormatError.
    destruct (error_Error formatError w) as [[text w0]|] eqn:He.
    + pose proof (error_Error_pure _ _ _ _ He) as ->.
      erewrite run_bind by exact He. erewrite run_bind by exact He.
      split; [|discriminate]. unfold ErrInvalidRequest.
      match goal with |- NewErrorClass ?c ?s ?m ?kv w = None → _ =>
        destruct (NewErrorClass_run c s m kv w) as (p & _ & ->)
      end. discriminate.
    + split; [reflexivity|]. intros _. unfold mbind, M_bind. now rewrite He.
  - intros text w0 He. pose proof (error_Error_pure _ _ _ _ He) as ->.
    unfold InvalidFormatError.
    erewrite run_bind by exact He. erewrite run_bind by exact He.
    unfold ErrInvalidRequest.
    match goal with |- ∃ p w' r, NewErrorClass ?c ?s ?m ?kv w = _ ∧ _ =>
      destruct (NewErrorClass_run c s m kv w) as (p & _ & Hrun)
    end.
    exists p. eexists _, _. split; [exact Hrun|]. cbn [heap].
    split; [apply lookup_insert_eq|]. repeat split.
Qed.

(** * The resource DSL *)

Section ResourceDSL_facts.

Context {engine dsl ResourceDefinition : Type}.
Context (IsTopLevelDefinition : engine → bool).
Context (IncompatibleDSL : engine → engine).
Context (ReportError : string → list value → engine → engine).
Context (NewResourceDefinition : string → dsl → ResourceDefinition).

Local Abbreviation Resource' :=
  (Resource IsTopLevelDefinition IncompatibleDSL ReportError NewResourceDefinition).

(** [Resource] never replaces or removes a definition: whatever it is called
    with, the map is there afterwards and every name registered before is
    registered to the same definition after; when the name it is given is
    already registered, or the DSL is not at the top level, it returns nil
    and registers nothing; and when it does return a definition, that
    definition is the new one and is registered under the name. *)
Theorem Resource_keeps_definitions name d
    (st : design_state engine ResourceDefinition) :
  ∃ res st',
    Resource' name d st = (res, st')
    ∧ is_Some (Resources st')
    ∧ (∀ k r, resource_named st k = Some r → resource_named st' k = Some r)
    ∧ (is_Some (resource_named st name)
       ∨ IsTopLevelDefinition (engine_state st) = false →
       res = None ∧ ∀ k, resource_named st' k = resource_named st k)
    ∧ (∀ r, res = Some r →
         r = NewResourceDefinition name d
         ∧ resource_named st' name = Some r
         ∧ resource_named st name = None
         ∧ engine_state st' = engine_state st).
Proof.
  destruct st as [rs eng]. unfold Resource, resource_named.
  cbn [Resources engine_state].
  assert (Hnil : ∀ k, default ∅ rs !! k = match rs with Some m => m !! k | None => None end).
  { intros k. destruct rs; [reflexivity|apply lookup_empty]. }
  destruct (IsTopLevelDefinition eng) eqn:Htop; cbn [negb].
  - destruct (default ∅ rs !! name) as [r0|] eqn:Hname.
    + eexists _, _. split; [reflexivity|]. cbn [Resources engine_state].
      split; [eauto|]. split; [intros k r; now rewrite Hnil|].
      split; [intros _; split; [reflexivity|intros k; apply Hnil]|].
      discriminate.
    + eexists _, _. split; [reflexivity|]. cbn [Resources engine_state].
      split; [eauto|]. rewrite Hnil in Hname. split.
      { intros k r Hk. rewrite lookup_insert_ne; [now rewrite Hnil|].
        intros ->. congruence. }
      split.
      { intros [[r Hr]|H]; congruence. }
      intros r Hr. injection Hr as <-. rewrite lookup_insert_eq. auto.
  - eexists _, _. split; [reflexivity|]. cbn [Resources engine_state].
    split; [eauto|]. split; [intros k r; now rewrite Hnil|].
    split; [intros _; split; [reflexivity|intros k; apply Hnil]|].
    discriminate.
Qed.

(** The first definition of a name wins: once a call of [Resource] has
    returned a definition for a name, every later call with that name, with
    any DSL and in any engine state, returns nil and leaves all registered
    definitions as they are. *)
Theorem Resource_defined_twice name d1 d2
    (st : design_state engine ResourceDefinition) r1 st1 eng :
  Resource' name d1 st = (Some r1, st1) →
  ∃ st2,
    Resource' name d2 (DesignState (Resources st1) eng) = (None, st2)
    ∧ resource_named st2 name = Some r1
    ∧ ∀ k, resource_named st2 k = resource_named st1 k.
Proof.
  destruct st as [rs eng0]. unfold Resource. cbn [Resources engine_state].
  destruct (negb (IsTopLevelDefinition eng0)); [discriminate|].
  destruct (default ∅ rs !! name) eqn:Hname; [discriminate|].
  intros H. injection H as <- <-. cbn [Resources default from_option id].
  destruct (negb (IsTopLevelDefinition eng)).
  - eexists. split; [reflexivity|]. unfold resource_named. cbn [Resources].
    split; [apply lookup_insert_eq|reflexivity].
  - rewrite lookup_insert_eq. eexists. split; [reflexivity|].
    unfold resource_named. cbn [Resources].
    split; [apply lookup_insert_eq|reflexivity].
Qed.

End ResourceDSL_facts.

Lemma Resource_defined_twice_witness :
  sample_Resource "bottle" tt sample_design
    = (Some "bottle"%string,
       DesignState (Some {["bottle"%string := "bottle"%string]}) (true, []))
  ∧ ∃ st2,
      sample_Resource "bottle" tt
        (DesignState (Some {["bottle"%string := "bottle"%string]}) (false, []))
        = (None, st2)
      ∧ resource_named st2 "bottle" = Some "bottle"%string
      ∧ ∀ k, resource_named st2 k
             = resource_named
                 (DesignState (Some {["bottle"%string := "bottle"%string]})
                    (true, @nil string)) k.
Proof.
  split; [reflexivity|].
  apply (Resource_defined_twice (engine := bool * list string) fst
           (λ e, (e.1, e.2 ++ ["incompatible DSL"%string]))
           (λ fm args e, (e.1, e.2 ++ [fm]))
           (λ name _, name) "bottle" tt tt sample_design "bottle"%string
           (DesignState (Some {["bottle"%string := "bottle"%string]}) (true, []))
           (false, [])).
  reflexivity.
Defined.

(** * The order of the two arguments *)

Lemma resolve_status_sym x y : (resolve x y).1 = (resolve y x).1.
Proof.
  destruct (decide (x.1 = 500)) as [Hx|Hx].
  { rewrite (resolve_500_l x y Hx).
    destruct (decide (y.1 = 500)) as [Hy|Hy].
    - rewrite (resolve_500_l y x Hy). congruence.
    - now rewrite (resolve_500_r y x Hy Hx). }
  destruct (decide (y.1 = 500)) as [Hy|Hy].
  { now rewrite (resolve_500_r x y Hx Hy), (resolve_500_l y x Hy). }
  destruct (decide (x = y)) as [->|Hne]; [reflexivity|].
  rewrite (resolve_diff x y), (resolve_diff y x) by auto. reflexivity.
Qed.

Lemma resolve_sym x y : x.1 ≠ 500 → y.1 ≠ 500 → resolve x y = resolve y x.
Proof.
  intros Hx Hy. destruct (decide (x = y)) as [->|Hne]; [reflexivity|].
  rewrite (resolve_diff x y), (resolve_diff y x) by auto. reflexivity.
Qed.

(** The status of a merge does not depend on which of two structured errors
    comes first, and neither does the code unless one of them is a 500 (the
    id, and the order of details and metadata, do). *)
Theorem MergeErrors_status_symmetric e o w a b :
  heap w !! e = Some a →
  heap w !! o = Some b →
  ∃ w1 r1 w2 r2,
    MergeErrors (Resp e) (Resp o) w = Some (Resp e, w1)
    ∧ heap w1 !! e = Some r1
    ∧ MergeErrors (Resp o) (Resp e) w = Some (Resp o, w2)
    ∧ heap w2 !! o = Some r2
    ∧ Status r1 = Status r2
    ∧ (Status a ≠ 500 → Status b ≠ 500 → Code r1 = Code r2).
Proof.
  intros Ha Hb.
  rewrite (MergeErrors_pointers e o a b w Ha Hb).
  rewrite (MergeErrors_pointers o e b a w Hb Ha).
  eexists _, (merged a b), _, (merged b a).
  split; [reflexivity|]. cbn [heap]. split; [apply lookup_insert_eq|].
  split; [reflexivity|]. cbn [heap]. split; [apply lookup_insert_eq|].
  pose proof (merged_class a b) as Hab. pose proof (merged_class b a) as Hba.
  split.
  - change (Status (merged a b)) with (Status (merged a b), Code (merged a b)).1.
    change (Status (merged b a)) with (Status (merged b a), Code (merged b a)).1.
    rewrite Hab, Hba. apply resolve_status_sym.
  - intros Ha5 Hb5.
    change (Code (merged a b)) with (Status (merged a b), Code (merged a b)).2.
    change (Code (merged b a)) with (Status (merged b a), Code (merged b a)).2.
    rewrite Hab, Hba. now rewrite resolve_sym.
Qed.

Lemma MergeErrors_status_symmetric_witness :
  heap (two_errors not_found_7 bad_sort) !! 1%positive = Some not_found_7
  ∧ heap (two_errors not_found_7 bad_sort) !! 2%positive = Some bad_sort
  ∧ ∃ w1 r1 w2 r2,
      MergeErrors (Resp 1) (Resp 2) (two_errors not_found_7 bad_sort)
        = Some (Resp 1, w1)
      ∧ heap w1 !! 1%positive = Some r1
      ∧ MergeErrors (Resp 2) (Resp 1) (two_errors not_found_7 bad_sort)
          = Some (Resp 2, w2)
      ∧ heap w2 !! 2%positive = Some r2
      ∧ Status r1 = Status r2
      ∧ (Status not_found_7 ≠ 500 → Status bad_sort ≠ 500 → Code r1 = Code r2).
Proof.
  split; [reflexivity|]. split; [reflexivity|].
  apply (MergeErrors_status_symmetric 1 2 (two_errors not_found_7 bad_sort)
           not_found_7 bad_sort); reflexivity.
Defined.
